(** * SecretSanta: the phase-gated matching and reveal state machine

    A shallow embedding of the [SecretSanta] contract (the Solidity source
    bundled in [smart-contracts/scripts/deploy-test.ts]) and the properties
    of its circular-offset matching, gift submission and reveal logic.

    Conventions of the embedding:
    - [uint256], [uint64], [uint32] values and addresses are integers in [Z];
      checked [uint256] arithmetic reverts with a panic when the result does
      not fit, casts to [uint32] reduce modulo [2^32];
    - a Solidity [mapping] is a [gmap] read with the type's zero value as
      default;
    - a call either commits a new state or reverts with an error and leaves
      the state as it was: every entry point returns a [result];
    - the encrypted integers of the FHE library are represented by the
      plaintext they carry, and the library's operations by their plaintext
      meaning; the random value drawn by [FHE.randEuint32] and the validity
      of an input proof are arguments of the call that consumes them. *)

From Stdlib Require Import ZArith Lia String.
From stdpp Require Import base option list gmap.

Open Scope Z_scope.

(** ** Types of the contract *)

Abbreviation address := Z (only parsing).

Inductive GamePhase : Type :=
  | Registration
  | Matching
  | GiftSubmission
  | WaitingReveal
  | Revealed.

#[global] Instance GamePhase_eq_dec : EqDecision GamePhase.
Proof. solve_decision. Defined.

Inductive Event : Type :=
  | ParticipantRegistered (participant : address) (index : Z)
  | PhaseChanged (newPhase : GamePhase) (timestamp : Z)
  | MatchingCompleted (timestamp : Z)
  | GiftSubmitted (giver : address) (timestamp : Z)
  | GameRevealed (timestamp : Z)
  | RecipientRevealed (giver recipient : address).

(** The custom errors of the contract, the string reverts of its [require]
    statements, the compiler's panics (0x11 arithmetic overflow, 0x12
    division by zero, 0x32 array index out of bounds) and the revert of the
    FHE library on an input whose proof does not verify. *)
Inductive Error : Type :=
  | OnlyOwner
  | InvalidPhase
  | DeadlinePassed
  | DeadlineNotReached
  | AlreadyRegistered
  | NotRegistered
  | GameFull
  | IncorrectEntryFee
  | InsufficientParticipants
  | AlreadySubmittedGift
  | NotEnoughParticipants
  | RequireFailed (msg : string)
  | Panic (code : Z)
  | InvalidInputProof.

Inductive result (A : Type) : Type :=
  | Ok (a : A)
  | Revert (e : Error).
Arguments Ok {A} a.
Arguments Revert {A} e.

#[global] Instance result_ret : MRet result := fun _ a => Ok a.
#[global] Instance result_bind : MBind result := fun _ _ f c =>
  match c with
  | Ok a => f a
  | Revert e => Revert e
  end.

Definition require (cond : bool) (msg : string) : result unit :=
  if cond then Ok () else Revert (RequireFailed msg).

Definition revert_if (cond : bool) (e : Error) : result unit :=
  if cond then Revert e else Ok ().

(** ** Machine integers *)

Definition UINT256_MAX : Z := 2 ^ 256 - 1.
Definition UINT32_MOD : Z := 4294967296.

Definition uint32 (x : Z) : Z := x mod UINT32_MOD.

Definition add256 (a b : Z) : result Z :=
  if a + b <=? UINT256_MAX then Ok (a + b) else Revert (Panic 17).

Definition mod256 (a b : Z) : result Z :=
  if b =? 0 then Revert (Panic 18) else Ok (a mod b).

Definition array_get (l : list address) (i : Z) : result address :=
  match l !! Z.to_nat i with
  | Some a => Ok a
  | None => Revert (Panic 50)
  end.

(** ** The FHE library, by the plaintext meaning of its operations

    [euint32] arithmetic wraps modulo [2^32]; [rem] divides by a plaintext
    scalar; [select] receives both alternatives already evaluated and
    returns one of them. *)
Module FHE.
Definition asEuint32 (v : Z) : Z := uint32 v.
Definition add (a b : Z) : Z := uint32 (a + b).
Definition rem (a b : Z) : Z := a mod b.
Definition eq (a b : Z) : bool := a =? b.
Definition select (c : bool) (a b : Z) : Z := if c then a else b.
End FHE.

(** ** Contract storage *)

Record State : Type := mkState {
  (* game configuration, immutable after construction *)
  owner : address;
  registrationDeadline : Z;
  giftSubmissionDeadline : Z;
  revealTime : Z;
  entryFee : Z;
  minParticipants : Z;
  maxParticipants : Z;
  (* current game state *)
  currentPhase : GamePhase;
  (* participants *)
  participants : list address;
  participantIndex : gmap Z Z;
  isParticipant : gmap Z bool;
  participantCount : Z;
  (* encrypted matching data *)
  encryptedMatchingOffset : Z;
  matchingGenerated : bool;
  (* gift submission tracking *)
  encryptedGiftValues : gmap Z Z;
  giftMetadataURIs : gmap Z string;
  hasSubmittedGift : gmap Z bool;
  giftsSubmittedCount : Z;
  (* revealed data *)
  revealedRecipients : gmap Z Z;
  revealedGiftValues : gmap Z Z;
  revealedOffset : Z;
  (* the log of emitted events, oldest first *)
  events : list Event
}.

(** Reading a mapping: an absent key reads as the zero value. *)
Definition getFlag (m : gmap Z bool) (a : address) : bool := default false (m !! a).
Definition getWord (m : gmap Z Z) (a : address) : Z := default 0 (m !! a).
Definition getString (m : gmap Z string) (a : address) : string :=
  default EmptyString (m !! a).

(** Storage writes. *)
Definition set_currentPhase (p : GamePhase) (s : State) : State :=
  mkState (owner s) (registrationDeadline s) (giftSubmissionDeadline s) (revealTime s)
    (entryFee s) (minParticipants s) (maxParticipants s)
    p
    (participants s) (participantIndex s) (isParticipant s) (participantCount s)
    (encryptedMatchingOffset s) (matchingGenerated s)
    (encryptedGiftValues s) (giftMetadataURIs s) (hasSubmittedGift s) (giftsSubmittedCount s)
    (revealedRecipients s) (revealedGiftValues s) (revealedOffset s)
    (events s).

Definition set_events (log : list Event) (s : State) : State :=
  mkState (owner s) (registrationDeadline s) (giftSubmissionDeadline s) (revealTime s)
    (entryFee s) (minParticipants s) (maxParticipants s)
    (currentPhase s)
    (participants s) (participantIndex s) (isParticipant s) (participantCount s)
    (encryptedMatchingOffset s) (matchingGenerated s)
    (encryptedGiftValues s) (giftMetadataURIs s) (hasSubmittedGift s) (giftsSubmittedCount s)
    (revealedRecipients s) (revealedGiftValues s) (revealedOffset s)
    log.

Definition emit (e : Event) (s : State) : State := set_events (events s ++ [e]) s.

Definition set_registry (ps : list address) (idx : gmap Z Z) (isP : gmap Z bool)
    (count : Z) (s : State) : State :=
  mkState (owner s) (registrationDeadline s) (giftSubmissionDeadline s) (revealTime s)
    (entryFee s) (minParticipants s) (maxParticipants s)
    (currentPhase s)
    ps idx isP count
    (encryptedMatchingOffset s) (matchingGenerated s)
    (encryptedGiftValues s) (giftMetadataURIs s) (hasSubmittedGift s) (giftsSubmittedCount s)
    (revealedRecipients s) (revealedGiftValues s) (revealedOffset s)
    (events s).

Definition set_matching (offset : Z) (generated : bool) (s : State) : State :=
  mkState (owner s) (registrationDeadline s) (giftSubmissionDeadline s) (revealTime s)
    (entryFee s) (minParticipants s) (maxParticipants s)
    (currentPhase s)
    (participants s) (participantIndex s) (isParticipant s) (participantCount s)
    offset generated
    (encryptedGiftValues s) (giftMetadataURIs s) (hasSubmittedGift s) (giftsSubmittedCount s)
    (revealedRecipients s) (revealedGiftValues s) (revealedOffset s)
    (events s).

Definition set_gifts (vals : gmap Z Z) (uris : gmap Z string) (flags : gmap Z bool)
    (count : Z) (s : State) : State :=
  mkState (owner s) (registrationDeadline s) (giftSubmissionDeadline s) (revealTime s)
    (entryFee s) (minParticipants s) (maxParticipants s)
    (currentPhase s)
    (participants s) (participantIndex s) (isParticipant s) (participantCount s)
    (encryptedMatchingOffset s) (matchingGenerated s)
    vals uris flags count
    (revealedRecipients s) (revealedGiftValues s) (revealedOffset s)
    (events s).

Definition set_revealedRecipients (m : gmap Z Z) (s : State) : State :=
  mkState (owner s) (registrationDeadline s) (giftSubmissionDeadline s) (revealTime s)
    (entryFee s) (minParticipants s) (maxParticipants s)
    (currentPhase s)
    (participants s) (participantIndex s) (isParticipant s) (participantCount s)
    (encryptedMatchingOffset s) (matchingGenerated s)
    (encryptedGiftValues s) (giftMetadataURIs s) (hasSubmittedGift s) (giftsSubmittedCount s)
    m (revealedGiftValues s) (revealedOffset s)
    (events s).

Definition set_revealedGiftValues (m : gmap Z Z) (s : State) : State :=
  mkState (owner s) (registrationDeadline s) (giftSubmissionDeadline s) (revealTime s)
    (entryFee s) (minParticipants s) (maxParticipants s)
    (currentPhase s)
    (participants s) (participantIndex s) (isParticipant s) (participantCount s)
    (encryptedMatchingOffset s) (matchingGenerated s)
    (encryptedGiftValues s) (giftMetadataURIs s) (hasSubmittedGift s) (giftsSubmittedCount s)
    (revealedRecipients s) m (revealedOffset s)
    (events s).

Definition set_revealedOffset (o : Z) (s : State) : State :=
  mkState (owner s) (registrationDeadline s) (giftSubmissionDeadline s) (revealTime s)
    (entryFee s) (minParticipants s) (maxParticipants s)
    (currentPhase s)
    (participants s) (participantIndex s) (isParticipant s) (participantCount s)
    (encryptedMatchingOffset s) (matchingGenerated s)
    (encryptedGiftValues s) (giftMetadataURIs s) (hasSubmittedGift s) (giftsSubmittedCount s)
    (revealedRecipients s) (revealedGiftValues s) o
    (events s).

(** ** Modifiers *)

Definition onlyOwner (sender : address) (s : State) : result unit :=
  revert_if (negb (bool_decide (sender = owner s))) OnlyOwner.

Definition inPhase (phase : GamePhase) (s : State) : result unit :=
  revert_if (negb (bool_decide (currentPhase s = phase))) InvalidPhase.

Definition onlyParticipant (sender : address) (s : State) : result unit :=
  revert_if (negb (getFlag (isParticipant s) sender)) NotRegistered.

(** ** Constructor *)

Definition constructor (sender : address) (now : Z)
    (_registrationPeriod _giftSubmissionPeriod _revealDelay _entryFee
     _minParticipants _maxParticipants : Z) : result State :=
  require (3 <=? _minParticipants) "Need at least 3 participants";;
  require (_maxParticipants <=? 256) "Max 256 participants";;
  require (_minParticipants <=? _maxParticipants) "Invalid participant limits";;
  regDeadline ← add256 now _registrationPeriod;
  giftDeadline ← add256 regDeadline _giftSubmissionPeriod;
  revealAt ← add256 giftDeadline _revealDelay;
  Ok (mkState sender regDeadline giftDeadline revealAt _entryFee
        _minParticipants _maxParticipants
        Registration
        [] ∅ ∅ 0
        0 false
        ∅ ∅ ∅ 0
        ∅ ∅ 0
        [PhaseChanged Registration now]).

(** ** Registration phase *)

Definition register (sender : address) (value : Z) (now : Z) (s : State) : result State :=
  inPhase Registration s;;
  revert_if (registrationDeadline s <=? now) DeadlinePassed;;
  revert_if (getFlag (isParticipant s) sender) AlreadyRegistered;;
  revert_if (maxParticipants s <=? participantCount s) GameFull;;
  revert_if (negb (value =? entryFee s)) IncorrectEntryFee;;
  count' ← add256 (participantCount s) 1;
  let s1 := set_registry (participants s ++ [sender])
              (<[sender := participantCount s]> (participantIndex s))
              (<[sender := true]> (isParticipant s))
              count' s in
  Ok (emit (ParticipantRegistered sender (count' - 1)) s1).

Definition getParticipants (s : State) : list address := participants s.

(** ** Matching phase *)

(** The value [_generateMatches] stores, as a function of the random
    [rawOffset] and of [participantCount]: the lines from [FHE.rem] to
    [FHE.select]. *)
Definition matchingOffset (rawOffset : Z) (count : Z) : Z :=
  let offsetMod := FHE.rem rawOffset (uint32 count) in
  let zero := FHE.asEuint32 0 in
  let one := FHE.asEuint32 1 in
  let isZero := FHE.eq offsetMod zero in
  FHE.select isZero one offsetMod.

Definition _generateMatches (rawOffset : Z) (s : State) : result State :=
  require (negb (matchingGenerated s)) "Matches already generated";;
  Ok (set_matching (matchingOffset rawOffset (participantCount s)) true s).

Definition startMatching (sender : address) (now : Z) (rawOffset : Z) (s : State)
    : result State :=
  onlyOwner sender s;;
  inPhase Registration s;;
  revert_if ((now <? registrationDeadline s) && (participantCount s <? maxParticipants s))
    DeadlineNotReached;;
  revert_if (participantCount s <? minParticipants s) InsufficientParticipants;;
  let s1 := emit (PhaseChanged Matching now) (set_currentPhase Matching s) in
  s2 ← _generateMatches rawOffset s1;
  let s3 := emit (PhaseChanged GiftSubmission now) (set_currentPhase GiftSubmission s2) in
  Ok (emit (MatchingCompleted now) s3).

(** ** Recipient query *)

(** The index arithmetic of [getMyRecipientEncrypted], over [euint32]. *)
Definition encryptedRecipientIndex (myIndex offset count : Z) : Z :=
  let myIndexEnc := FHE.asEuint32 (uint32 myIndex) in
  let sum := FHE.add myIndexEnc offset in
  FHE.rem sum (uint32 count).

Definition getMyRecipientEncrypted (sender : address) (s : State) : result Z :=
  onlyParticipant sender s;;
  require (matchingGenerated s) "Matching not yet generated";;
  require (bool_decide (currentPhase s = GiftSubmission)
           || bool_decide (currentPhase s = WaitingReveal))
    "Cannot query recipient in this phase";;
  let myIndex := getWord (participantIndex s) sender in
  Ok (encryptedRecipientIndex myIndex (encryptedMatchingOffset s) (participantCount s)).

Definition getParticipantByIndex (index : Z) (s : State) : result address :=
  require (index <? participantCount s) "Index out of bounds";;
  array_get (participants s) index.

(** ** Gift submission phase *)

Definition submitGift (sender : address) (now : Z) (giftValue : Z) (proofValid : bool)
    (giftMetadataURI : string) (s : State) : result State :=
  onlyParticipant sender s;;
  inPhase GiftSubmission s;;
  revert_if (giftSubmissionDeadline s <=? now) DeadlinePassed;;
  revert_if (getFlag (hasSubmittedGift s) sender) AlreadySubmittedGift;;
  revert_if (negb proofValid) InvalidInputProof;;
  count' ← add256 (giftsSubmittedCount s) 1;
  let s1 := set_gifts (<[sender := giftValue]> (encryptedGiftValues s))
              (<[sender := giftMetadataURI]> (giftMetadataURIs s))
              (<[sender := true]> (hasSubmittedGift s))
              count' s in
  let s2 := emit (GiftSubmitted sender now) s1 in
  if giftsSubmittedCount s2 =? participantCount s2
  then Ok (emit (PhaseChanged WaitingReveal now) (set_currentPhase WaitingReveal s2))
  else Ok s2.

(** ** Reveal phase *)

(** The index arithmetic of the reveal loop, over checked [uint256]:
    [(i + decryptedOffset) % participantCount]. *)
Definition revealRecipientIndex (i decryptedOffset count : Z) : result Z :=
  sum ← add256 i decryptedOffset;
  mod256 sum count.

(** The body of the [for] loop of [triggerReveal], run [n] more times from
    index [i]. *)
Fixpoint reveal_loop (n : nat) (i : Z) (decryptedOffset : Z) (s : State) : result State :=
  match n with
  | O => Ok s
  | S n' =>
      giver ← array_get (participants s) i;
      recipientIndex ← revealRecipientIndex i decryptedOffset (participantCount s);
      recipient ← array_get (participants s) recipientIndex;
      let s1 := set_revealedRecipients (<[giver := recipient]> (revealedRecipients s)) s in
      let s2 := emit (RecipientRevealed giver recipient) s1 in
      i' ← add256 i 1;
      reveal_loop n' i' decryptedOffset s2
  end.

Definition triggerReveal (sender : address) (now : Z) (decryptedOffset : Z) (s : State)
    : result State :=
  onlyOwner sender s;;
  require (bool_decide (currentPhase s = WaitingReveal)) "Not ready for reveal";;
  require (revealTime s <=? now) "Too early to reveal";;
  let s1 := emit (PhaseChanged Revealed now) (set_currentPhase Revealed s) in
  let s2 := set_revealedOffset decryptedOffset s1 in
  s3 ← reveal_loop (Z.to_nat (participantCount s2)) 0 decryptedOffset s2;
  Ok (emit (GameRevealed now) s3).

Definition revealGift (sender : address) (participant : address) (giftValue : Z)
    (s : State) : result State :=
  onlyOwner sender s;;
  require (bool_decide (currentPhase s = Revealed)) "Not in reveal phase";;
  require (getFlag (isParticipant s) participant) "Not a participant";;
  Ok (set_revealedGiftValues (<[participant := giftValue]> (revealedGiftValues s)) s).

(** ** View functions *)

Definition getRevealedMatch (giver : address) (s : State) : result (Z * Z * string) :=
  require (bool_decide (currentPhase s = Revealed)) "Not revealed yet";;
  Ok (getWord (revealedRecipients s) giver,
      getWord (revealedGiftValues s) giver,
      getString (giftMetadataURIs s) giver).

Definition isRegistered (addr : address) (s : State) : bool :=
  getFlag (isParticipant s) addr.

Definition getGiftsSubmittedCount (s : State) : Z := giftsSubmittedCount s.

(** ** Calls and executions

    The state-changing entry points as one type of calls, each carrying the
    caller, the block timestamp and the arguments it uses. A reverted call
    commits nothing. *)

Inductive Call : Type :=
  | CallRegister (sender : address) (value : Z) (now : Z)
  | CallStartMatching (sender : address) (now : Z) (rawOffset : Z)
  | CallGetMyRecipientEncrypted (sender : address)
  | CallSubmitGift (sender : address) (now : Z) (giftValue : Z) (proofValid : bool)
      (giftMetadataURI : string)
  | CallTriggerReveal (sender : address) (now : Z) (decryptedOffset : Z)
  | CallRevealGift (sender : address) (participant : address) (giftValue : Z).

Definition exec (c : Call) (s : State) : result State :=
  match c with
  | CallRegister sender value now => register sender value now s
  | CallStartMatching sender now raw => startMatching sender now raw s
  | CallGetMyRecipientEncrypted sender => getMyRecipientEncrypted sender s;; Ok s
  | CallSubmitGift sender now v ok uri => submitGift sender now v ok uri s
  | CallTriggerReveal sender now off => triggerReveal sender now off s
  | CallRevealGift sender p v => revealGift sender p v s
  end.

Fixpoint run (cs : list Call) (s : State) : result State :=
  match cs with
  | [] => Ok s
  | c :: cs' => s' ← exec c s; run cs' s'
  end.

(** The states a deployed game can be in: the one the constructor leaves,
    and those reached from it by calls that do not revert. *)
Inductive reachable : State -> Prop :=
  | reachable_init sender now rp gp rd fee mn mx s :
      0 <= now -> 0 <= rp -> 0 <= gp -> 0 <= rd ->
      constructor sender now rp gp rd fee mn mx = Ok s ->
      reachable s
  | reachable_step c s s' :
      reachable s -> exec c s = Ok s' -> reachable s'.

(** ** Counting raw random inputs

    [count_below P m] is the number of integers [r] in [[0, m)] with
    [P r]; [rawInputsMappedTo n o] is the number of 32-bit raw values that
    the offset pipeline of [_generateMatches] sends to the offset [o] when
    there are [n] participants. *)

Fixpoint count_below (P : Z -> bool) (m : nat) : Z :=
  match m with
  | O => 0
  | S m' => (if P (Z.of_nat m') then 1 else 0) + count_below P m'
  end.

Definition rawInputsMappedTo (n o : Z) : Z :=
  count_below (fun raw => matchingOffset raw n =? o) (Z.to_nat UINT32_MOD).

(** The number of 32-bit values with remainder [k] modulo [n], in closed
    form. *)
Definition residueCount (n k : Z) : Z := (UINT32_MOD - 1 - k) / n + 1.

(** A map of [[0, n)] to itself that is one-to-one and onto. *)
Definition bijection_on (n : Z) (f : Z -> Z) : Prop :=
  (forall i, 0 <= i < n -> 0 <= f i < n) /\
  (forall i j, 0 <= i < n -> 0 <= j < n -> f i = f j -> i = j) /\
  (forall k, 0 <= k < n -> exists i, 0 <= i < n /\ f i = k).

(** ** Scenario states

    The game of the specification's scenario: registration period 180,
    submission period 120, reveal delay 60, fee 1, between 3 and 5
    participants, created at time 100 by the operator 1000. [after cs s]
    is the state left by the calls [cs], in order, from [s]; a call that
    reverts ends the run and leaves the state where it started. *)

Definition genesis : State :=
  mkState 1000 280 400 460 1 3 5
    Registration
    [] ∅ ∅ 0
    0 false
    ∅ ∅ ∅ 0
    ∅ ∅ 0
    [PhaseChanged Registration 100].

Definition after (cs : list Call) (s : State) : State :=
  match run cs s with
  | Ok s' => s'
  | Revert _ => s
  end.

Definition registrations : list Call :=
  [CallRegister 11 1 110; CallRegister 12 1 120; CallRegister 13 1 130].

Definition submissions : list Call :=
  [CallSubmitGift 11 300 5 true "ipfs://a"; CallSubmitGift 12 310 6 true "ipfs://b";
   CallSubmitGift 13 320 7 true "ipfs://c"].

(** Three participants registered, matching done with raw random value 7,
    nobody has submitted yet. *)
Definition state_matched : State :=
  after (registrations ++ [CallStartMatching 1000 280 7]) genesis.

(** The same game after the first participant submitted. *)
Definition state_one_gift : State :=
  after [CallSubmitGift 11 300 5 true "ipfs://a"] state_matched.

(** The same game after all three submitted. *)
Definition state_all_gifts : State := after submissions state_matched.

(** The same game after the operator revealed with offset 1. *)
Definition state_revealed : State :=
  after [CallTriggerReveal 1000 460 1] state_all_gifts.

(** A game created at time 100 with all three periods equal to 0. *)
Definition state_zero_periods : State :=
  mkState 1000 100 100 100 1 3 5
    Registration
    [] ∅ ∅ 0
    0 false
    ∅ ∅ ∅ 0
    ∅ ∅ 0
    [PhaseChanged Registration 100].

(** A storage in phase Revealed whose three participants have no recorded
    gift: the registry of the scenario with the phase overwritten. *)
Definition state_revealed_no_gifts : State :=
  set_currentPhase Revealed (after registrations genesis).

(** ** Further functions of the contract *)

(** [_nextPowerOfTwo], over checked [uint256]: the decrement cannot
    underflow after the zero test, shifts and ors stay in range, the final
    increment is checked. *)
Definition _nextPowerOfTwo (n : Z) : result Z :=
  if n =? 0 then Ok 1
  else
    let n := n - 1 in
    let n := Z.lor n (Z.shiftr n 1) in
    let n := Z.lor n (Z.shiftr n 2) in
    let n := Z.lor n (Z.shiftr n 4) in
    let n := Z.lor n (Z.shiftr n 8) in
    let n := Z.lor n (Z.shiftr n 16) in
    let n := Z.lor n (Z.shiftr n 32) in
    add256 n 1.

(** [y] has its highest set bit at position [h] and its [m] highest bits,
    from [h] down, all set. *)
Definition top_bits_set (h m y : Z) : Prop :=
  (forall i, h < i -> Z.testbit y i = false) /\
  (forall i, 0 <= i -> h - m < i -> i <= h -> Z.testbit y i = true).

Definition getGameInfo (s : State) : GamePhase * Z * Z * Z * Z :=
  (currentPhase s, participantCount s, registrationDeadline s,
   giftSubmissionDeadline s, revealTime s).

(** The number an enum value of [GamePhase] is encoded as; the front end's
    [GamePhase] constant lists the same numbers. *)
Definition phaseIndex (p : GamePhase) : Z :=
  match p with
  | Registration => 0
  | Matching => 1
  | GiftSubmission => 2
  | WaitingReveal => 3
  | Revealed => 4
  end.

(** The block timestamp a call reads, for the calls that read it. *)
Definition call_time (c : Call) : option Z :=
  match c with
  | CallRegister _ _ now => Some now
  | CallStartMatching _ now _ => Some now
  | CallGetMyRecipientEncrypted _ => None
  | CallSubmitGift _ now _ _ _ => Some now
  | CallTriggerReveal _ now _ => Some now
  | CallRevealGift _ _ _ => None
  end.

(** The registered participants whose gift is recorded. *)
Definition submittedParticipants (s : State) : list Z :=
  filter (fun a => getFlag (hasSubmittedGift s) a = true) (participants s).

(** The table written by the reveal, in index form: the participant at
    index [i] is mapped to the one at [(i + revealedOffset) mod count]. *)
Definition revealed_table (s : State) : Prop :=
  forall (i : nat) a, participants s !! i = Some a ->
    exists r,
      participants s
        !! Z.to_nat ((Z.of_nat i + revealedOffset s) mod participantCount s) = Some r /\
      revealedRecipients s !! a = Some r.

(** ** The parameter validation script

    [validateParams] of the deployment scripts, on integer parameters. Its
    console output is left out; the messages it collects are kept by kind,
    with the numbers they quote, in the order they are pushed. *)

Record DeployParams : Type := mkDeployParams {
  name : string;
  REGISTRATION_PERIOD : Z;
  MATCHING_PERIOD : Z;
  REVEAL_DELAY : Z;
  ENTRY_FEE : string;
  MIN_PARTICIPANTS : Z;
  MAX_PARTICIPANTS : Z
}.

Inductive ParamError : Type :=
  | MinParticipantsBelow3 (min : Z)
  | MaxParticipantsAbove256 (max : Z)
  | MinAboveMax (min max : Z).

Inductive ParamWarning : Type :=
  | ShortRegistrationPeriod (seconds : Z)
  | ShortMatchingPeriod (seconds : Z)
  | ShortRevealDelay (seconds : Z).

Definition validateParams_errors (params : DeployParams) : list ParamError :=
  let errors := [] in
  let errors :=
    if MIN_PARTICIPANTS params <? 3
    then errors ++ [MinParticipantsBelow3 (MIN_PARTICIPANTS params)] else errors in
  let errors :=
    if 256 <? MAX_PARTICIPANTS params
    then errors ++ [MaxParticipantsAbove256 (MAX_PARTICIPANTS params)] else errors in
  let errors :=
    if MAX_PARTICIPANTS params <? MIN_PARTICIPANTS params
    then errors ++ [MinAboveMax (MIN_PARTICIPANTS params) (MAX_PARTICIPANTS params)]
    else errors in
  errors.

Definition validateParams_warnings (params : DeployParams) : list ParamWarning :=
  let warnings := [] in
  let warnings :=
    if REGISTRATION_PERIOD params <? 60
    then warnings ++ [ShortRegistrationPeriod (REGISTRATION_PERIOD params)] else warnings in
  let warnings :=
    if MATCHING_PERIOD params <? 60
    then warnings ++ [ShortMatchingPeriod (MATCHING_PERIOD params)] else warnings in
  let warnings :=
    if REVEAL_DELAY params <? 60
    then warnings ++ [ShortRevealDelay (REVEAL_DELAY params)] else warnings in
  warnings.

Definition validateParams (params : DeployParams) : bool :=
  if (0 <? Z.of_nat (length (validateParams_errors params))) then false else true.

(** ** The timeline of the front end

    [getPhaseStatus] of the [GameTimeline] component: the status shown for
    a phase number, given the number of the current phase. *)

Inductive PhaseStatus : Type :=
  | completed
  | current
  | upcoming.

Definition getPhaseStatus (currentPhase : Z) (phase : Z) : PhaseStatus :=
  if phase <? currentPhase then completed
  else if phase =? currentPhase then current
  else upcoming.

(** ** The invariant of the game

    What holds of the storage between any two calls. [matched s] is what
    [startMatching] establishes once and for all. *)

Definition matched (s : State) : Prop :=
  matchingGenerated s = true /\
  minParticipants s <= participantCount s /\
  1 <= encryptedMatchingOffset s <= participantCount s - 1.

Definition phase_inv (s : State) : Prop :=
  match currentPhase s with
  | Registration =>
      matchingGenerated s = false /\ giftsSubmittedCount s = 0 /\
      (forall a, getFlag (hasSubmittedGift s) a = false)
  | Matching => False
  | GiftSubmission => matched s /\ giftsSubmittedCount s < participantCount s
  | WaitingReveal | Revealed => matched s /\ giftsSubmittedCount s = participantCount s
  end.

Record inv (s : State) : Prop := mkInv {
  inv_length : Z.of_nat (length (participants s)) = participantCount s;
  inv_nodup : NoDup (participants s);
  inv_registered : forall a, getFlag (isParticipant s) a = true <-> a ∈ participants s;
  inv_index : forall i a,
    participants s !! i = Some a -> getWord (participantIndex s) a = Z.of_nat i;
  inv_limits :
    3 <= minParticipants s /\ minParticipants s <= maxParticipants s /\
    maxParticipants s <= 256;
  inv_capacity : participantCount s <= maxParticipants s;
  inv_deadlines :
    registrationDeadline s <= giftSubmissionDeadline s /\
    giftSubmissionDeadline s <= revealTime s;
  inv_gifts : 0 <= giftsSubmittedCount s <= participantCount s;
  inv_submitted : forall a,
    getFlag (hasSubmittedGift s) a = true -> getFlag (isParticipant s) a = true;
  inv_phase : phase_inv s
}.

(** * Properties *)

(** ** The error monad *)

Lemma bind_Ok {A B} (c : result A) (k : A -> result B) (b : B) :
  (c ≫= k) = Ok b <-> exists a, c = Ok a /\ k a = Ok b.
Proof.
  destruct c as [a|e]; simpl; split.
  - intros H. exists a. split; [reflexivity | exact H].
  - intros (a' & Ha & Hk). inversion Ha. subst. exact Hk.
  - intros H. discriminate H.
  - intros (a' & Ha & _). discriminate Ha.
Qed.

Lemma require_Ok cond msg (u : unit) : require cond msg = Ok u -> cond = true.
Proof. unfold require. destruct cond; [reflexivity | discriminate]. Qed.

Lemma revert_if_Ok cond e (u : unit) : revert_if cond e = Ok u -> cond = false.
Proof. unfold revert_if. destruct cond; [discriminate | reflexivity]. Qed.

Lemma onlyOwner_Ok sender s (u : unit) : onlyOwner sender s = Ok u -> sender = owner s.
Proof.
  intros H. apply revert_if_Ok in H. apply negb_false_iff in H.
  apply bool_decide_eq_true in H. exact H.
Qed.

Lemma inPhase_Ok phase s (u : unit) : inPhase phase s = Ok u -> currentPhase s = phase.
Proof.
  intros H. apply revert_if_Ok in H. apply negb_false_iff in H.
  apply bool_decide_eq_true in H. exact H.
Qed.

Lemma onlyParticipant_Ok sender s (u : unit) :
  onlyParticipant sender s = Ok u -> getFlag (isParticipant s) sender = true.
Proof. intros H. apply revert_if_Ok in H. apply negb_false_iff in H. exact H. Qed.

(** Peels the guards off a hypothesis [H : (guard ;; rest) = Ok s'],
    leaving each guard's outcome in the context. *)
Ltac peel H :=
  repeat
    (let u := fresh "u" in
     let Hg := fresh "Hg" in
     apply bind_Ok in H as (u & Hg & H);
     first [ apply onlyOwner_Ok in Hg
           | apply inPhase_Ok in Hg
           | apply onlyParticipant_Ok in Hg
           | apply require_Ok in Hg
           | apply revert_if_Ok in Hg
           | idtac ]).

(** ** Machine integers *)

Lemma UINT256_MAX_large : 2 ^ 64 <= UINT256_MAX.
Proof. unfold UINT256_MAX. apply Z.leb_le. vm_compute. reflexivity. Qed.

Lemma add256_Ok a b : a + b <= UINT256_MAX -> add256 a b = Ok (a + b).
Proof.
  intros H. unfold add256. apply Z.leb_le in H. rewrite H. reflexivity.
Qed.

Lemma add256_inv a b c : add256 a b = Ok c -> c = a + b /\ a + b <= UINT256_MAX.
Proof.
  unfold add256. destruct (a + b <=? UINT256_MAX) eqn:E; [|discriminate].
  intros H. inversion H. apply Z.leb_le in E. auto.
Qed.

Lemma uint32_small x : 0 <= x < UINT32_MOD -> uint32 x = x.
Proof. intros H. unfold uint32. apply Z.mod_small. exact H. Qed.

(** ** Circular shift arithmetic *)

Section CircularShift.
Variables n o : Z.
Hypothesis Hn : 2 <= n.
Hypothesis Ho : 1 <= o <= n - 1.

Lemma shift_in_range i : 0 <= (i + o) mod n < n.
Proof. apply Z.mod_pos_bound. lia. Qed.

Lemma shift_cases i :
  0 <= i < n ->
  (i + o < n /\ (i + o) mod n = i + o) \/ (n <= i + o /\ (i + o) mod n = i + o - n).
Proof.
  intros Hi. destruct (Z_lt_ge_dec (i + o) n) as [Hlt|Hge].
  - left. split; [exact Hlt|]. apply Z.mod_small. lia.
  - right. split; [lia|]. symmetry. apply (Z.mod_unique _ _ 1); lia.
Qed.

Lemma shift_no_fixpoint i : 0 <= i < n -> (i + o) mod n <> i.
Proof. intros Hi. destruct (shift_cases i Hi) as [[? ->]|[? ->]]; lia. Qed.

Lemma shift_injective i j :
  0 <= i < n -> 0 <= j < n -> (i + o) mod n = (j + o) mod n -> i = j.
Proof.
  intros Hi Hj.
  destruct (shift_cases i Hi) as [[? ->]|[? ->]];
    destruct (shift_cases j Hj) as [[? ->]|[? ->]]; lia.
Qed.

Lemma shift_surjective k :
  0 <= k < n -> exists i, 0 <= i < n /\ (i + o) mod n = k.
Proof.
  intros Hk. destruct (Z_lt_ge_dec k o) as [Hlt|Hge].
  - exists (k - o + n). split; [lia|].
    symmetry. apply (Z.mod_unique _ _ 1); lia.
  - exists (k - o). split; [lia|]. replace (k - o + o) with k by lia.
    apply Z.mod_small. lia.
Qed.

Lemma shift_bijection : bijection_on n (fun i => (i + o) mod n).
Proof.
  repeat split.
  - apply shift_in_range.
  - apply shift_in_range.
  - apply shift_injective.
  - apply shift_surjective.
Qed.
End CircularShift.

Lemma encryptedRecipientIndex_eq n o i :
  2 <= n <= 2 ^ 31 -> 0 <= o <= n - 1 -> 0 <= i < n ->
  encryptedRecipientIndex i o n = (i + o) mod n.
Proof.
  intros Hn Ho Hi.
  assert (H31 : 2 ^ 31 = 2147483648) by reflexivity.
  unfold encryptedRecipientIndex, FHE.rem, FHE.add, FHE.asEuint32.
  rewrite !(uint32_small i) by (unfold UINT32_MOD; lia).
  rewrite (uint32_small (i + o)) by (unfold UINT32_MOD; lia).
  rewrite (uint32_small n) by (unfold UINT32_MOD; lia).
  reflexivity.
Qed.

Lemma revealRecipientIndex_eq n o i :
  0 < n -> 0 <= i -> 0 <= o -> i + o <= UINT256_MAX ->
  revealRecipientIndex i o n = Ok ((i + o) mod n).
Proof.
  intros Hn Hi Ho Hsum. unfold revealRecipientIndex.
  rewrite add256_Ok by exact Hsum. simpl. unfold mod256.
  destruct (n =? 0) eqn:E; [apply Z.eqb_eq in E; lia | reflexivity].
Qed.

(** The arithmetic of the two derivations, for an offset in [[1, n-1]]. *)
Lemma circular_derivation (n o : Z) :
  2 <= n <= 2 ^ 31 ->
  1 <= o <= n - 1 ->
  (forall i, 0 <= i < n ->
     encryptedRecipientIndex i o n = (i + o) mod n /\
     revealRecipientIndex i o n = Ok ((i + o) mod n) /\
     (i + o) mod n <> i) /\
  bijection_on n (fun i => (i + o) mod n) /\
  bijection_on n (fun i => encryptedRecipientIndex i o n).
Proof.
  intros Hn Ho.
  assert (H31 : 2 ^ 31 = 2147483648) by reflexivity.
  assert (Hbij : bijection_on n (fun i => (i + o) mod n))
    by (apply shift_bijection; lia).
  split; [|split]; [| exact Hbij |].
  - intros i Hi. split; [|split].
    + apply encryptedRecipientIndex_eq; lia.
    + apply revealRecipientIndex_eq; try lia.
      pose proof UINT256_MAX_large. assert (2 ^ 64 = 18446744073709551616) by reflexivity. lia.
    + apply shift_no_fixpoint; lia.
  - destruct Hbij as (Hr & Hi & Hs). repeat split.
    + rewrite encryptedRecipientIndex_eq by lia. apply Hr. exact H.
    + rewrite encryptedRecipientIndex_eq by lia. apply Hr. exact H.
    + intros i j Hi' Hj'. rewrite !encryptedRecipientIndex_eq by lia. apply Hi; assumption.
    + intros k Hk. destruct (Hs k Hk) as (i & Hi' & Hik). exists i. split; [exact Hi'|].
      rewrite encryptedRecipientIndex_eq by lia. exact Hik.
Qed.

(** ** The offset pipeline of [_generateMatches] *)

Lemma matchingOffset_cases raw n :
  2 <= n < UINT32_MOD ->
  0 <= raw mod n <= n - 1 /\
  matchingOffset raw n = (if raw mod n =? 0 then 1 else raw mod n).
Proof.
  intros Hn. split.
  - pose proof (Z.mod_pos_bound raw n). lia.
  - unfold matchingOffset, FHE.select, FHE.eq, FHE.rem, FHE.asEuint32.
    rewrite (uint32_small n) by lia. reflexivity.
Qed.

Lemma matchingOffset_range raw n :
  2 <= n < UINT32_MOD -> 1 <= matchingOffset raw n <= n - 1.
Proof.
  intros Hn. destruct (matchingOffset_cases raw n Hn) as [Hr ->].
  destruct (raw mod n =? 0) eqn:E; [lia|]. apply Z.eqb_neq in E. lia.
Qed.

(** C2. With [n >= 2] participants and matching not yet generated,
    [_generateMatches] succeeds on every raw random value: the candidate
    [rem raw n] lies in [[0, n-1]], the stored offset is the [select]
    between the constant 1 and the candidate (both passed to it, evaluated)
    on the test [candidate = 0], it lies in [[1, n-1]], the shift by it
    fixes no index, and [startMatching] stores exactly this offset. *)
Theorem generateMatches_offset_in_range (s : State) (rawOffset : Z) :
  2 <= participantCount s <= 2 ^ 31 ->
  matchingGenerated s = false ->
  let n := participantCount s in
  let candidate := FHE.rem rawOffset (uint32 n) in
  exists s',
    _generateMatches rawOffset s = Ok s' /\
    0 <= candidate <= n - 1 /\
    encryptedMatchingOffset s' =
      FHE.select (FHE.eq candidate (FHE.asEuint32 0)) (FHE.asEuint32 1) candidate /\
    encryptedMatchingOffset s' = (if candidate =? 0 then 1 else candidate) /\
    1 <= encryptedMatchingOffset s' <= n - 1 /\
    matchingGenerated s' = true /\
    (forall i, 0 <= i < n -> encryptedRecipientIndex i (encryptedMatchingOffset s') n <> i) /\
    (forall sender now s'',
       startMatching sender now rawOffset s = Ok s'' ->
       encryptedMatchingOffset s'' = encryptedMatchingOffset s' /\
       currentPhase s'' = GiftSubmission).
Proof.
  intros Hn Hgen n candidate.
  assert (H31 : 2 ^ 31 = 2147483648) by reflexivity.
  assert (Hn' : 2 <= n < UINT32_MOD) by (unfold n, UINT32_MOD; lia).
  exists (set_matching (matchingOffset rawOffset n) true s).
  destruct (matchingOffset_cases rawOffset n Hn') as [Hc Hm].
  pose proof (matchingOffset_range rawOffset n Hn') as Hr.
  assert (Hcand : candidate = rawOffset mod n).
  { unfold candidate, FHE.rem. rewrite (uint32_small n) by lia. reflexivity. }
  split_and!.
  - unfold _generateMatches. rewrite Hgen. reflexivity.
  - rewrite Hcand. lia.
  - rewrite Hcand. lia.
  - reflexivity.
  - simpl. rewrite Hcand. exact Hm.
  - simpl. lia.
  - simpl. lia.
  - reflexivity.
  - intros i Hi. simpl.
    rewrite encryptedRecipientIndex_eq by (unfold n in *; lia).
    apply shift_no_fixpoint; lia.
  - intros sender now s'' H. unfold startMatching in H. peel H.
    unfold _generateMatches in Hg3. simpl in Hg3.
    peel Hg3. inversion Hg3; subst. inversion H; subst. split; reflexivity.
Qed.

Lemma generateMatches_offset_witness :
  exists s',
    _generateMatches 7 (after registrations genesis) = Ok s' /\
    encryptedMatchingOffset s' = 1 /\
    1 <= encryptedMatchingOffset s' <= 3 - 1.
Proof.
  destruct (generateMatches_offset_in_range (after registrations genesis) 7)
    as (s' & Hrun & _ & _ & Hval & Hrange & _).
  - vm_compute. split; discriminate.
  - vm_compute. reflexivity.
  - exists s'. split; [exact Hrun|]. split; [exact Hval | exact Hrange].
Defined.

(** ** Counting the raw inputs behind each offset *)

Lemma count_below_ext (P Q : Z -> bool) (m : nat) :
  (forall r, 0 <= r < Z.of_nat m -> P r = Q r) ->
  count_below P m = count_below Q m.
Proof.
  induction m as [|m IH]; intros H; [reflexivity|].
  cbn [count_below]. rewrite H by lia. rewrite IH; [reflexivity|].
  intros r Hr. apply H. lia.
Qed.

Lemma count_below_disjoint (P Q : Z -> bool) (m : nat) :
  (forall r, 0 <= r < Z.of_nat m -> P r && Q r = false) ->
  count_below (fun r => P r || Q r) m = count_below P m + count_below Q m.
Proof.
  induction m as [|m IH]; intros H; [reflexivity|].
  cbn [count_below]. rewrite IH by (intros r Hr; apply H; lia).
  specialize (H (Z.of_nat m) ltac:(lia)).
  destruct (P (Z.of_nat m)), (Q (Z.of_nat m)); simpl in *; try discriminate; lia.
Qed.

Lemma count_below_nonneg (P : Z -> bool) (m : nat) : 0 <= count_below P m.
Proof.
  induction m as [|m IH]; cbn [count_below]; [lia|].
  destruct (P (Z.of_nat m)); lia.
Qed.

Lemma count_below_residue (n k : Z) (m : nat) :
  0 < n -> 0 <= k < n ->
  count_below (fun r => r mod n =? k) m = (Z.of_nat m - 1 - k) / n + 1.
Proof.
  intros Hn Hk. induction m as [|m IH].
  - cbn [count_below]. change (Z.of_nat 0) with 0.
    assert ((0 - 1 - k) / n = -1); [|lia].
    symmetry. apply (Z.div_unique _ _ _ (n - 1 - k)); lia.
  - cbn [count_below]. rewrite IH.
    replace (Z.of_nat (S m) - 1 - k) with (Z.of_nat m - k) by lia.
    set (x := Z.of_nat m) in *.
    pose proof (Z.div_mod (x - k) n ltac:(lia)) as E1.
    pose proof (Z.mod_pos_bound (x - k) n Hn) as B1.
    pose proof (Z.div_mod x n ltac:(lia)) as E2.
    pose proof (Z.mod_pos_bound x n Hn) as B2.
    destruct (x mod n =? k) eqn:E.
    + apply Z.eqb_eq in E.
      assert (Hq : (x - k) / n = x / n).
      { symmetry. apply (Z.div_unique _ _ _ 0); lia. }
      assert (Hq' : (x - 1 - k) / n = x / n - 1).
      { symmetry. apply (Z.div_unique _ _ _ (n - 1)); lia. }
      lia.
    + apply Z.eqb_neq in E.
      assert (Hr : (x - k) mod n <> 0).
      { intros H0. apply E.
        assert (x = n * ((x - k) / n) + k) by lia.
        symmetry. apply (Z.mod_unique _ _ ((x - k) / n)); lia. }
      assert (Hq' : (x - 1 - k) / n = (x - k) / n).
      { symmetry. apply (Z.div_unique _ _ _ ((x - k) mod n - 1)); lia. }
      lia.
Qed.

Lemma count_offset_one (n : Z) (m : nat) :
  2 <= n < UINT32_MOD ->
  count_below (fun raw => matchingOffset raw n =? 1) m =
  count_below (fun r => r mod n =? 0) m + count_below (fun r => r mod n =? 1) m.
Proof.
  intros Hn. rewrite <- count_below_disjoint.
  - apply count_below_ext. intros r _.
    destruct (matchingOffset_cases r n Hn) as [_ ->].
    destruct (r mod n =? 0) eqn:E; [reflexivity|]. reflexivity.
  - intros r _. destruct (r mod n =? 0) eqn:E; [|reflexivity].
    apply Z.eqb_eq in E. rewrite E. reflexivity.
Qed.

Lemma count_offset_other (n o : Z) (m : nat) :
  2 <= n < UINT32_MOD -> 2 <= o ->
  count_below (fun raw => matchingOffset raw n =? o) m =
  count_below (fun r => r mod n =? o) m.
Proof.
  intros Hn Ho. apply count_below_ext. intros r _.
  destruct (matchingOffset_cases r n Hn) as [_ ->].
  destruct (r mod n =? 0) eqn:E; [|reflexivity].
  apply Z.eqb_eq in E. rewrite E.
  transitivity false; [|symmetry]; apply Z.eqb_neq; lia.
Qed.

Lemma UINT32_MOD_nat : Z.of_nat (Z.to_nat UINT32_MOD) = UINT32_MOD.
Proof. apply Z2Nat.id. unfold UINT32_MOD. lia. Qed.

Lemma rawInputsMappedTo_one (n : Z) :
  2 <= n < UINT32_MOD ->
  rawInputsMappedTo n 1 = residueCount n 0 + residueCount n 1.
Proof.
  intros Hn. unfold rawInputsMappedTo, residueCount.
  rewrite count_offset_one by exact Hn.
  rewrite !count_below_residue by lia.
  rewrite UINT32_MOD_nat. reflexivity.
Qed.

Lemma rawInputsMappedTo_other (n o : Z) :
  2 <= n < UINT32_MOD -> 2 <= o <= n - 1 ->
  rawInputsMappedTo n o = residueCount n o.
Proof.
  intros Hn Ho. unfold rawInputsMappedTo, residueCount.
  rewrite count_offset_other by lia.
  rewrite count_below_residue by lia.
  rewrite UINT32_MOD_nat. reflexivity.
Qed.

Lemma residueCount_pos (n k : Z) :
  2 <= n < UINT32_MOD -> 0 <= k < n -> 1 <= residueCount n k.
Proof.
  intros Hn Hk. unfold residueCount.
  assert (0 <= (UINT32_MOD - 1 - k) / n); [|lia].
  apply Z.div_pos; lia.
Qed.

Lemma residueCount_close (n k1 k2 : Z) :
  2 <= n < UINT32_MOD -> 0 <= k1 <= k2 -> k2 < n ->
  0 <= residueCount n k1 - residueCount n k2 <= 1.
Proof.
  intros Hn Hk1 Hk2. unfold residueCount.
  set (A := UINT32_MOD - 1) in *.
  pose proof (Z.div_mod (A - k1) n ltac:(lia)) as E1.
  pose proof (Z.mod_pos_bound (A - k1) n ltac:(lia)) as B1.
  pose proof (Z.div_mod (A - k2) n ltac:(lia)) as E2.
  pose proof (Z.mod_pos_bound (A - k2) n ltac:(lia)) as B2.
  nia.
Qed.

(** C3, as the code has it. For [n >= 2] participants the offset is not
    spread evenly over [[1, n-1]]: offset 1 is produced by the raw 32-bit
    values with remainder 0 and by those with remainder 1, every offset [o]
    in [[2, n-1]] only by those with remainder [o]. Hence every such [o] is
    produced by at least one raw value and by strictly fewer than offset 1,
    and two offsets in [[2, n-1]] are produced by numbers of raw values that
    differ by at most one. *)
Theorem offset_distribution (n : Z) :
  2 <= n < UINT32_MOD ->
  rawInputsMappedTo n 1 = residueCount n 0 + residueCount n 1 /\
  (forall o, 2 <= o <= n - 1 ->
     rawInputsMappedTo n o = residueCount n o /\
     0 < rawInputsMappedTo n o < rawInputsMappedTo n 1) /\
  (forall o1 o2, 2 <= o1 <= o2 -> o2 <= n - 1 ->
     0 <= rawInputsMappedTo n o1 - rawInputsMappedTo n o2 <= 1).
Proof.
  intros Hn. split; [|split].
  - apply rawInputsMappedTo_one. exact Hn.
  - intros o Ho. rewrite rawInputsMappedTo_one by exact Hn.
    rewrite rawInputsMappedTo_other by (exact Hn || exact Ho).
    split; [reflexivity|].
    pose proof (residueCount_pos n 0 Hn ltac:(lia)).
    pose proof (residueCount_pos n o Hn ltac:(lia)).
    pose proof (residueCount_close n 1 o Hn ltac:(lia) ltac:(lia)).
    lia.
  - intros o1 o2 Ho1 Ho2.
    rewrite !rawInputsMappedTo_other by (exact Hn || lia).
    apply residueCount_close; [exact Hn | lia | lia].
Qed.

Lemma offset_distribution_witness :
  rawInputsMappedTo 3 1 = residueCount 3 0 + residueCount 3 1 /\
  (forall o, 2 <= o <= 3 - 1 ->
     rawInputsMappedTo 3 o = residueCount 3 o /\
     0 < rawInputsMappedTo 3 o < rawInputsMappedTo 3 1) /\
  (forall o1 o2, 2 <= o1 <= o2 -> o2 <= 3 - 1 ->
     0 <= rawInputsMappedTo 3 o1 - rawInputsMappedTo 3 o2 <= 1).
Proof.
  apply (offset_distribution 3). unfold UINT32_MOD. lia.
Defined.

(** C3, as stated, fails with three participants: of the [2^32] raw values,
    2863311531 give offset 1 and 1431655765 give offset 2. *)
Lemma offset_not_uniform_counterexample :
  2 <= 3 /\ 1 <= 1 <= 3 - 1 /\ 1 <= 2 <= 3 - 1 /\
  rawInputsMappedTo 3 1 = 2863311531 /\
  rawInputsMappedTo 3 2 = 1431655765 /\
  rawInputsMappedTo 3 1 <> rawInputsMappedTo 3 2.
Proof.
  assert (H3 : 2 <= 3 < UINT32_MOD) by (unfold UINT32_MOD; lia).
  assert (H1 : rawInputsMappedTo 3 1 = 2863311531).
  { rewrite rawInputsMappedTo_one by exact H3. reflexivity. }
  assert (H2 : rawInputsMappedTo 3 2 = 1431655765).
  { rewrite rawInputsMappedTo_other by (exact H3 || lia). reflexivity. }
  split_and!; try assumption; lia.
Qed.

(** ** Mappings *)

Lemma getFlag_insert_eq (m : gmap Z bool) a b : getFlag (<[a := b]> m) a = b.
Proof. unfold getFlag. rewrite lookup_insert_eq. reflexivity. Qed.

Lemma getFlag_insert_ne (m : gmap Z bool) a a' b :
  a <> a' -> getFlag (<[a := b]> m) a' = getFlag m a'.
Proof. intros H. unfold getFlag. rewrite lookup_insert_ne by exact H. reflexivity. Qed.

Lemma getWord_insert_eq (m : gmap Z Z) a v : getWord (<[a := v]> m) a = v.
Proof. unfold getWord. rewrite lookup_insert_eq. reflexivity. Qed.

Lemma getWord_insert_ne (m : gmap Z Z) a a' v :
  a <> a' -> getWord (<[a := v]> m) a' = getWord m a'.
Proof. intros H. unfold getWord. rewrite lookup_insert_ne by exact H. reflexivity. Qed.

Lemma array_get_Ok (l : list Z) (i : nat) a :
  l !! i = Some a -> array_get l (Z.of_nat i) = Ok a.
Proof. intros H. unfold array_get. rewrite Nat2Z.id, H. reflexivity. Qed.

(** ** The reveal loop *)

(** The loop writes [revealedRecipients] and the event log, nothing else. *)
Lemma reveal_loop_frame n : forall i o s s',
  reveal_loop n i o s = Ok s' ->
  exists m log, s' = set_events log (set_revealedRecipients m s).
Proof.
  induction n as [|n IH]; intros i o s s' H.
  - inversion H; subst. exists (revealedRecipients s'), (events s'). destruct s'. reflexivity.
  - cbn [reveal_loop] in H. peel H.
    apply IH in H as (m & log & ->). exists m, log. reflexivity.
Qed.

(** Run from index [i] to the end of a registry of the right length, the
    loop succeeds; each participant at or after [i] ends up mapped to the
    participant [decryptedOffset] places after one of its positions (the
    last one), and entries of other keys are left alone. *)
Lemma reveal_loop_spec (o : Z) (k : nat) : forall (i : nat) (s : State),
  Z.of_nat (length (participants s)) = participantCount s ->
  (i + k)%nat = length (participants s) ->
  0 <= o -> participantCount s + o <= UINT256_MAX ->
  exists s',
    reveal_loop k (Z.of_nat i) o s = Ok s' /\
    (forall a, a ∈ drop i (participants s) ->
       exists (j : nat) r,
         (i <= j)%nat /\ participants s !! j = Some a /\
         participants s !! Z.to_nat ((Z.of_nat j + o) mod participantCount s) = Some r /\
         revealedRecipients s' !! a = Some r) /\
    (forall a, a ∉ drop i (participants s) ->
       revealedRecipients s' !! a = revealedRecipients s !! a).
Proof.
  induction k as [|k IH]; intros i s Hlen Hik Ho Hcap.
  - exists s. split; [reflexivity|]. split.
    + intros a Ha. rewrite drop_ge in Ha by lia. inversion Ha.
    + reflexivity.
  - assert (Hi : (i < length (participants s))%nat) by lia.
    destruct (lookup_lt_is_Some_2 _ _ Hi) as [giver Hgiver].
    set (n := participantCount s) in *.
    assert (Hn : 0 < n) by lia.
    pose proof (Z.mod_pos_bound (Z.of_nat i + o) n Hn) as Hidx.
    assert (Hidx' : (Z.to_nat ((Z.of_nat i + o) mod n) < length (participants s))%nat) by lia.
    destruct (lookup_lt_is_Some_2 _ _ Hidx') as [recipient Hrecipient].
    pose (s2 := emit (RecipientRevealed giver recipient)
                  (set_revealedRecipients (<[giver := recipient]> (revealedRecipients s)) s)).
    destruct (IH (S i) s2) as (s' & Hrun & Hin & Hout); [exact Hlen | simpl; lia | exact Ho | exact Hcap |].
    exists s'. split; [|split].
    + cbn [reveal_loop].
      rewrite (array_get_Ok _ _ _ Hgiver). simpl.
      rewrite revealRecipientIndex_eq by lia.
      simpl. fold n. unfold array_get at 1. rewrite Hrecipient. simpl.
      rewrite add256_Ok by lia.
      simpl. replace (Z.of_nat i + 1) with (Z.of_nat (S i)) by lia. exact Hrun.
    + intros a Ha.
      destruct (decide (a ∈ drop (S i) (participants s))) as [Hlater|Hnot].
      * destruct (Hin a Hlater) as (j & r & Hj & Hja & Hjr & Hres).
        exists j, r. split; [lia|]. split; [exact Hja|]. split; [exact Hjr | exact Hres].
      * rewrite (drop_S _ _ _ Hgiver) in Ha. apply elem_of_cons in Ha as [->|Ha]; [|contradiction].
        exists i, recipient. split; [lia|]. split; [exact Hgiver|]. split; [exact Hrecipient|].
        rewrite (Hout giver Hnot). simpl. apply lookup_insert_eq.
    + intros a Ha.
      assert (Hne : giver <> a).
      { intros ->. apply Ha. rewrite (drop_S _ _ _ Hgiver). apply elem_of_cons. left. reflexivity. }
      assert (Hnot : a ∉ drop (S i) (participants s)).
      { intros Hl. apply Ha. rewrite (drop_S _ _ _ Hgiver). apply elem_of_cons. right. exact Hl. }
      rewrite (Hout a Hnot). simpl. apply lookup_insert_ne. exact Hne.
Qed.

(** ** The invariant holds in every reachable state *)

Lemma inv_constructor sender now rp gp rd fee mn mx s :
  0 <= now -> 0 <= rp -> 0 <= gp -> 0 <= rd ->
  constructor sender now rp gp rd fee mn mx = Ok s -> inv s.
Proof.
  intros Hnow Hrp Hgp Hrd H. unfold constructor in H. peel H.
  apply add256_inv in Hg2 as [-> _]. apply add256_inv in Hg3 as [-> _].
  apply add256_inv in Hg4 as [-> _].
  apply Z.leb_le in Hg, Hg0, Hg1.
  inversion H; subst; clear H.
  constructor; simpl.
  - reflexivity.
  - apply NoDup_nil_2.
  - intros a. unfold getFlag. rewrite lookup_empty. simpl. split; [discriminate|].
    intros Ha. inversion Ha.
  - intros i a Hi. rewrite lookup_nil in Hi. discriminate.
  - lia.
  - lia.
  - lia.
  - lia.
  - intros a. unfold getFlag. rewrite lookup_empty. simpl. discriminate.
  - unfold phase_inv. simpl. split; [reflexivity|]. split; [reflexivity|].
    intros a. unfold getFlag. rewrite lookup_empty. reflexivity.
Qed.

Lemma inv_register sender value now s s' :
  inv s -> register sender value now s = Ok s' -> inv s'.
Proof.
  intros [Hlen Hnd Hreg Hidx Hlim Hcap Hdl Hgifts Hsub Hph] H.
  unfold register in H. peel H.
  apply add256_inv in Hg4 as [-> _].
  apply Z.leb_gt in Hg2.
  inversion H; subst; clear H.
  unfold phase_inv in Hph. rewrite Hg in Hph. destruct Hph as (Hgen & Hzero & Hnone).
  assert (Hfresh : sender ∉ participants s).
  { intros Hin. apply Hreg in Hin. congruence. }
  constructor; simpl.
  - rewrite length_app. simpl. lia.
  - apply NoDup_app. split; [exact Hnd|]. split; [|apply NoDup_singleton].
    intros x Hx Hx'. apply list_elem_of_singleton in Hx'. subst. contradiction.
  - intros a. rewrite elem_of_app, list_elem_of_singleton.
    destruct (decide (sender = a)) as [->|Hne].
    + rewrite getFlag_insert_eq. split; auto.
    + rewrite getFlag_insert_ne by exact Hne. rewrite Hreg. split; [auto|].
      intros [Ha|Ha]; [exact Ha | congruence].
  - intros i a Hi. apply lookup_app_Some in Hi as [Hi|[Hge Hi]].
    + assert (Hne : sender <> a).
      { intros ->. apply Hfresh. apply list_elem_of_lookup. eauto. }
      rewrite getWord_insert_ne by exact Hne. apply Hidx. exact Hi.
    + apply list_lookup_singleton_Some in Hi as [Hi ->].
      rewrite getWord_insert_eq. lia.
  - exact Hlim.
  - lia.
  - exact Hdl.
  - lia.
  - intros a Ha. rewrite Hnone in Ha. discriminate.
  - unfold phase_inv. simpl. rewrite Hg. auto.
Qed.

Lemma inv_startMatching sender now raw s s' :
  inv s -> startMatching sender now raw s = Ok s' -> inv s'.
Proof.
  intros [Hlen Hnd Hreg Hidx Hlim Hcap Hdl Hgifts Hsub Hph] H.
  unfold startMatching in H. peel H.
  unfold _generateMatches in Hg3. peel Hg3.
  inversion Hg3; subst; clear Hg3. inversion H; subst; clear H.
  apply Z.ltb_ge in Hg2.
  unfold phase_inv in Hph. rewrite Hg0 in Hph. destruct Hph as (Hgen & Hzero & Hnone).
  constructor; simpl; try assumption.
  unfold phase_inv, matched. simpl.
  assert (Hn : 2 <= participantCount s < UINT32_MOD) by (unfold UINT32_MOD; lia).
  pose proof (matchingOffset_range raw (participantCount s) Hn).
  repeat split; lia.
Qed.

Lemma inv_submitGift sender now v ok uri s s' :
  inv s -> submitGift sender now v ok uri s = Ok s' -> inv s'.
Proof.
  intros [Hlen Hnd Hreg Hidx Hlim Hcap Hdl Hgifts Hsub Hph] H.
  unfold submitGift in H. peel H.
  apply add256_inv in Hg4 as [-> _].
  unfold phase_inv in Hph. rewrite Hg0 in Hph. destruct Hph as (Hm & Hlt).
  assert (Hsub' : forall a,
    getFlag (<[sender := true]> (hasSubmittedGift s)) a = true ->
    getFlag (isParticipant s) a = true).
  { intros a. destruct (decide (sender = a)) as [->|Hne].
    - intros _. exact Hg.
    - rewrite getFlag_insert_ne by exact Hne. apply Hsub. }
  simpl in H.
  destruct (giftsSubmittedCount s + 1 =? participantCount s) eqn:E;
    inversion H; subst; clear H.
  - apply Z.eqb_eq in E.
    constructor; simpl; try assumption; [lia|].
    unfold phase_inv, matched in *. simpl. split; [exact Hm | exact E].
  - apply Z.eqb_neq in E.
    constructor; simpl; try assumption; [lia|].
    unfold phase_inv, matched in *. simpl. rewrite Hg0. split; [exact Hm | lia].
Qed.

Lemma inv_triggerReveal sender now off s s' :
  inv s -> triggerReveal sender now off s = Ok s' -> inv s'.
Proof.
  intros [Hlen Hnd Hreg Hidx Hlim Hcap Hdl Hgifts Hsub Hph] H.
  unfold triggerReveal in H. peel H.
  apply bool_decide_eq_true in Hg0.
  apply reveal_loop_frame in Hg2 as (m & log & ->).
  inversion H; subst; clear H.
  unfold phase_inv in Hph. rewrite Hg0 in Hph.
  constructor; simpl; try assumption.
Qed.

Lemma inv_revealGift sender p v s s' :
  inv s -> revealGift sender p v s = Ok s' -> inv s'.
Proof.
  intros [Hlen Hnd Hreg Hidx Hlim Hcap Hdl Hgifts Hsub Hph] H.
  unfold revealGift in H. peel H.
  inversion H; subst; clear H.
  constructor; simpl; assumption.
Qed.

Lemma inv_exec c s s' : inv s -> exec c s = Ok s' -> inv s'.
Proof.
  intros Hinv H. destruct c; simpl in H.
  - eapply inv_register; eassumption.
  - eapply inv_startMatching; eassumption.
  - peel H. inversion H; subst. exact Hinv.
  - eapply inv_submitGift; eassumption.
  - eapply inv_triggerReveal; eassumption.
  - eapply inv_revealGift; eassumption.
Qed.

Lemma reachable_inv s : reachable s -> inv s.
Proof.
  induction 1 as [sender now rp gp rd fee mn mx s Hnow Hrp Hgp Hrd Hc | c s s' _ IH Hstep].
  - exact (inv_constructor _ _ _ _ _ _ _ _ _ Hnow Hrp Hgp Hrd Hc).
  - eapply inv_exec; eassumption.
Qed.

Lemma reachable_run cs : forall s s', reachable s -> run cs s = Ok s' -> reachable s'.
Proof.
  induction cs as [|c cs IH]; intros s s' Hr H; simpl in H.
  - inversion H; subst. exact Hr.
  - apply bind_Ok in H as (s1 & Hc & H). apply (IH s1); [|exact H].
    eapply reachable_step; eassumption.
Qed.

Lemma reachable_after cs s : reachable s -> reachable (after cs s).
Proof.
  intros Hr. unfold after. destruct (run cs s) as [s'|e] eqn:E.
  - eapply reachable_run; eassumption.
  - exact Hr.
Qed.

Lemma reachable_genesis : reachable genesis.
Proof.
  apply (reachable_init 1000 100 180 120 60 1 3 5); try lia. reflexivity.
Qed.

Lemma reachable_state_matched : reachable state_matched.
Proof. apply reachable_after, reachable_genesis. Qed.

Lemma reachable_state_one_gift : reachable state_one_gift.
Proof. apply reachable_after, reachable_state_matched. Qed.

Lemma reachable_state_all_gifts : reachable state_all_gifts.
Proof. apply reachable_after, reachable_state_matched. Qed.

Lemma reachable_state_revealed : reachable state_revealed.
Proof. apply reachable_after, reachable_state_all_gifts. Qed.

(** ** The recipient query in a deployed game *)

Lemma reachable_count_bound s : reachable s -> 0 <= participantCount s <= 256.
Proof.
  intros Hreach. pose proof (reachable_inv s Hreach) as Hinv.
  pose proof (inv_length s Hinv). pose proof (inv_capacity s Hinv).
  pose proof (inv_limits s Hinv). lia.
Qed.

(** Once matching is done and until the reveal, the participant registered
    at index [i] is answered [(i + offset) mod count], which is not [i]. *)
Lemma getMyRecipientEncrypted_spec s (i : nat) a :
  reachable s ->
  currentPhase s = GiftSubmission \/ currentPhase s = WaitingReveal ->
  participants s !! i = Some a ->
  getMyRecipientEncrypted a s =
    Ok ((Z.of_nat i + encryptedMatchingOffset s) mod participantCount s) /\
  (Z.of_nat i + encryptedMatchingOffset s) mod participantCount s <> Z.of_nat i.
Proof.
  intros Hreach Hph Hi. pose proof (reachable_inv s Hreach) as Hinv.
  pose proof (reachable_count_bound s Hreach) as Hbound.
  pose proof (inv_length s Hinv) as Hlen.
  pose proof (inv_limits s Hinv) as Hlim.
  pose proof (inv_phase s Hinv) as Hphase. unfold phase_inv, matched in Hphase.
  assert (Hm : matchingGenerated s = true /\ minParticipants s <= participantCount s /\
               1 <= encryptedMatchingOffset s <= participantCount s - 1).
  { destruct Hph as [Hp|Hp]; rewrite Hp in Hphase; apply Hphase. }
  destruct Hm as (Hgen & Hmin & Hoff).
  assert (Hreg : getFlag (isParticipant s) a = true).
  { apply (inv_registered s Hinv). apply list_elem_of_lookup. eauto. }
  assert (Hilt : (i < length (participants s))%nat) by (eapply lookup_lt_Some; eassumption).
  assert (H31 : 2 ^ 31 = 2147483648) by reflexivity.
  split.
  - unfold getMyRecipientEncrypted, onlyParticipant. rewrite Hreg, Hgen.
    assert (Hguard : bool_decide (currentPhase s = GiftSubmission)
                     || bool_decide (currentPhase s = WaitingReveal) = true).
    { destruct Hph as [Hp|Hp]; rewrite Hp; reflexivity. }
    rewrite Hguard. rewrite (inv_index s Hinv i a Hi).
    cbn [negb revert_if require mbind result_bind].
    rewrite encryptedRecipientIndex_eq by lia. reflexivity.
  - apply shift_no_fixpoint; lia.
Qed.

(** ** What each call does to the phase *)

Lemma exec_effect c s s' :
  exec c s = Ok s' ->
  match c with
  | CallRegister _ _ _ =>
      currentPhase s = Registration /\ currentPhase s' = Registration
  | CallStartMatching _ _ _ =>
      currentPhase s = Registration /\ currentPhase s' = GiftSubmission
  | CallGetMyRecipientEncrypted _ => s' = s
  | CallSubmitGift sender _ _ ok _ =>
      currentPhase s = GiftSubmission /\ ok = true /\
      getFlag (isParticipant s) sender = true /\
      participantCount s' = participantCount s /\
      giftsSubmittedCount s' = giftsSubmittedCount s + 1 /\
      currentPhase s' =
        (if giftsSubmittedCount s' =? participantCount s' then WaitingReveal
         else GiftSubmission)
  | CallTriggerReveal _ _ _ =>
      currentPhase s = WaitingReveal /\ currentPhase s' = Revealed
  | CallRevealGift _ _ _ =>
      currentPhase s = Revealed /\ currentPhase s' = Revealed
  end.
Proof.
  intros H. destruct c; simpl in H.
  - unfold register in H. peel H. inversion H; subst. split; [exact Hg | exact Hg].
  - unfold startMatching in H. peel H. inversion H; subst. split; [exact Hg0 | reflexivity].
  - peel H. inversion H. reflexivity.
  - unfold submitGift in H. peel H. apply add256_inv in Hg4 as [-> _].
    apply negb_false_iff in Hg3. simpl in H.
    destruct (giftsSubmittedCount s + 1 =? participantCount s) eqn:E;
      inversion H; subst; simpl; rewrite ?E; split_and!; auto.
  - unfold triggerReveal in H. peel H. apply bool_decide_eq_true in Hg0.
    apply reveal_loop_frame in Hg2 as (m & log & ->).
    inversion H; subst. split; [exact Hg0 | reflexivity].
  - unfold revealGift in H. peel H. apply bool_decide_eq_true in Hg0.
    inversion H; subst. split; [exact Hg0 | exact Hg0].
Qed.

Lemma revealed_is_final c s s' :
  exec c s = Ok s' -> currentPhase s = Revealed -> currentPhase s' = Revealed.
Proof.
  intros H Hph. apply exec_effect in H. destruct c.
  - destruct H as [H _]. congruence.
  - destruct H as [H _]. congruence.
  - subst. exact Hph.
  - destruct H as [H _]. congruence.
  - destruct H as [H _]. congruence.
  - destruct H as [_ H]. exact H.
Qed.

Lemma revealed_is_final_run cs : forall s s',
  run cs s = Ok s' -> currentPhase s = Revealed -> currentPhase s' = Revealed.
Proof.
  induction cs as [|c cs IH]; intros s s' H Hph; simpl in H.
  - inversion H; subst. exact Hph.
  - apply bind_Ok in H as (s1 & Hc & H). apply (IH s1 s' H).
    eapply revealed_is_final; eassumption.
Qed.

(** ** [triggerReveal] *)

Lemma triggerReveal_wrong_phase sender now off s :
  currentPhase s <> WaitingReveal ->
  triggerReveal sender now off s =
    Revert (if bool_decide (sender = owner s) then RequireFailed "Not ready for reveal"
            else OnlyOwner).
Proof.
  intros Hph. unfold triggerReveal, onlyOwner.
  destruct (bool_decide (sender = owner s)); simpl; [|reflexivity].
  rewrite bool_decide_eq_false_2 by exact Hph. reflexivity.
Qed.

Lemma triggerReveal_too_early sender now off s :
  now < revealTime s -> exists e, triggerReveal sender now off s = Revert e.
Proof.
  intros Hearly. unfold triggerReveal, onlyOwner.
  destruct (bool_decide (sender = owner s)); simpl; [|eauto].
  destruct (bool_decide (currentPhase s = WaitingReveal)); simpl; [|eauto].
  apply Z.leb_gt in Hearly. rewrite Hearly. simpl. eauto.
Qed.

Lemma triggerReveal_unfold now off s :
  currentPhase s = WaitingReveal -> revealTime s <= now ->
  triggerReveal (owner s) now off s =
    (s3 ← reveal_loop (Z.to_nat (participantCount s)) 0 off
            (set_revealedOffset off
               (emit (PhaseChanged Revealed now) (set_currentPhase Revealed s)));
     Ok (emit (GameRevealed now) s3)).
Proof.
  intros Hph Htime. unfold triggerReveal, onlyOwner.
  rewrite (bool_decide_eq_true_2 (owner s = owner s)) by reflexivity.
  rewrite (bool_decide_eq_true_2 (currentPhase s = WaitingReveal)) by exact Hph.
  apply Z.leb_le in Htime. rewrite Htime. reflexivity.
Qed.

Lemma triggerReveal_Ok now off s :
  inv s -> currentPhase s = WaitingReveal -> revealTime s <= now ->
  0 <= off < UINT32_MOD ->
  exists s',
    triggerReveal (owner s) now off s = Ok s' /\
    currentPhase s' = Revealed /\
    participants s' = participants s /\
    participantCount s' = participantCount s /\
    revealedOffset s' = off /\
    (forall a, a ∈ participants s ->
       exists (j : nat) r,
         participants s !! j = Some a /\
         participants s !! Z.to_nat ((Z.of_nat j + off) mod participantCount s) = Some r /\
         revealedRecipients s' !! a = Some r).
Proof.
  intros Hinv Hph Htime Hoff.
  pose proof (inv_length s Hinv) as Hlen.
  pose proof (inv_capacity s Hinv) as Hcap.
  pose proof (inv_limits s Hinv) as Hlim.
  set (s2 := set_revealedOffset off
               (emit (PhaseChanged Revealed now) (set_currentPhase Revealed s))).
  destruct (reveal_loop_spec off (length (participants s2)) 0%nat s2)
    as (s3 & Hrun & Hin & _).
  - exact Hlen.
  - reflexivity.
  - lia.
  - simpl. pose proof UINT256_MAX_large.
    assert (2 ^ 64 = 18446744073709551616) by reflexivity.
    unfold UINT32_MOD in Hoff. lia.
  - exists (emit (GameRevealed now) s3).
    pose proof (reveal_loop_frame _ _ _ _ _ Hrun) as (m & log & Hs3).
    split_and!.
    + rewrite triggerReveal_unfold by assumption. fold s2.
      replace (Z.to_nat (participantCount s)) with (length (participants s2))
        by (simpl; lia).
      change (Z.of_nat 0) with 0 in Hrun. rewrite Hrun. reflexivity.
    + rewrite Hs3. reflexivity.
    + rewrite Hs3. reflexivity.
    + rewrite Hs3. reflexivity.
    + rewrite Hs3. reflexivity.
    + intros a Ha. destruct (Hin a) as (j & r & _ & Hj & Hr & Hres).
      * rewrite drop_0. exact Ha.
      * exists j, r. split; [exact Hj|]. split; [exact Hr | exact Hres].
Qed.

(** C1. For [n >= 2] participants (at most [2^31], far above the 256 the
    constructor admits), an offset [o] in [[1, n-1]] and an index [i] in
    [[0, n)]: the recipient index [(i + o) mod n] differs from [i], and
    [i ↦ (i + o) mod n] is a bijection of [[0, n)]; and this is what the
    code derives. On any storage with [n] participants and stored offset
    [o], [getMyRecipientEncrypted] answers a registered caller of index [i]
    with [(i + o) mod n]; and on any storage whose registry lists [n]
    distinct participants, [triggerReveal] with offset [o] stores, for the
    participant at each index [i], the participant at index [(i + o) mod n],
    who is someone else. *)
Theorem recipient_derivation_no_self_match_bijection (n o : Z) :
  2 <= n <= 2 ^ 31 ->
  1 <= o <= n - 1 ->
  (forall i, 0 <= i < n ->
     encryptedRecipientIndex i o n = (i + o) mod n /\
     revealRecipientIndex i o n = Ok ((i + o) mod n) /\
     (i + o) mod n <> i) /\
  bijection_on n (fun i => (i + o) mod n) /\
  bijection_on n (fun i => encryptedRecipientIndex i o n) /\
  (forall (s : State) (a i : Z),
     participantCount s = n -> encryptedMatchingOffset s = o ->
     getFlag (isParticipant s) a = true -> matchingGenerated s = true ->
     currentPhase s = GiftSubmission \/ currentPhase s = WaitingReveal ->
     getWord (participantIndex s) a = i -> 0 <= i < n ->
     getMyRecipientEncrypted a s = Ok ((i + o) mod n) /\
     getMyRecipientEncrypted a s <> Ok i) /\
  (forall (s : State) (now : Z),
     participantCount s = n -> Z.of_nat (length (participants s)) = n ->
     NoDup (participants s) ->
     currentPhase s = WaitingReveal -> revealTime s <= now ->
     exists s',
       triggerReveal (owner s) now o s = Ok s' /\
       forall (i : nat) giver,
         participants s !! i = Some giver ->
         exists recipient,
           participants s !! Z.to_nat ((Z.of_nat i + o) mod n) = Some recipient /\
           recipient <> giver /\
           revealedRecipients s' !! giver = Some recipient).
Proof.
  intros Hn Ho.
  assert (H31 : 2 ^ 31 = 2147483648) by reflexivity.
  destruct (circular_derivation n o Hn Ho) as (Hpure & Hbij & Hbij').
  split_and!; try assumption.
  - intros s a i Hcnt Hoff Hreg Hgen Hph Hidx Hi.
    assert (Hq : getMyRecipientEncrypted a s = Ok ((i + o) mod n)).
    { unfold getMyRecipientEncrypted, onlyParticipant. rewrite Hreg, Hgen.
      assert (Hguard : bool_decide (currentPhase s = GiftSubmission)
                       || bool_decide (currentPhase s = WaitingReveal) = true).
      { destruct Hph as [Hp|Hp]; rewrite Hp; reflexivity. }
      rewrite Hguard, Hidx, Hoff, Hcnt.
      cbn [negb revert_if require mbind result_bind].
      rewrite encryptedRecipientIndex_eq by lia. reflexivity. }
    split; [exact Hq|]. rewrite Hq. intros E. inversion E as [E'].
    revert E'. apply shift_no_fixpoint; lia.
  - intros s now Hcnt Hlen Hnd Hph Htime.
    set (s2 := set_revealedOffset o
                 (emit (PhaseChanged Revealed now) (set_currentPhase Revealed s))).
    destruct (reveal_loop_spec o (length (participants s2)) 0%nat s2)
      as (s3 & Hrun & Hin & _).
    + simpl. lia.
    + reflexivity.
    + lia.
    + simpl. pose proof UINT256_MAX_large.
      assert (2 ^ 64 = 18446744073709551616) by reflexivity. lia.
    + exists (emit (GameRevealed now) s3). split.
      * rewrite triggerReveal_unfold by assumption. fold s2.
        replace (Z.to_nat (participantCount s)) with (length (participants s2))
          by (simpl; lia).
        change (Z.of_nat 0) with 0 in Hrun. rewrite Hrun. reflexivity.
      * pose proof (reveal_loop_frame _ _ _ _ _ Hrun) as (m & log & Hs3).
        intros i giver Hi. simpl in Hin.
        destruct (Hin giver) as (j & r & _ & Hj & Hr & Hres).
        { rewrite drop_0. apply list_elem_of_lookup. eauto. }
        assert (j = i) as -> by (eapply NoDup_lookup; eassumption).
        rewrite Hcnt in Hr.
        pose proof (lookup_lt_Some _ _ _ Hi) as Hilt.
        exists r. split_and!.
        -- exact Hr.
        -- intros ->. pose proof (NoDup_lookup _ _ _ _ Hnd Hr Hi) as Hsame.
           assert (Hfix : (Z.of_nat i + o) mod n <> Z.of_nat i)
             by (apply shift_no_fixpoint; lia).
           pose proof (Z.mod_pos_bound (Z.of_nat i + o) n ltac:(lia)). lia.
        -- rewrite Hs3. simpl. rewrite Hs3 in Hres. exact Hres.
Qed.

Lemma recipient_derivation_witness :
  (getMyRecipientEncrypted 11 state_all_gifts = Ok ((0 + 1) mod 3) /\
   getMyRecipientEncrypted 11 state_all_gifts <> Ok 0) /\
  (exists s',
     triggerReveal (owner state_all_gifts) 460 1 state_all_gifts = Ok s' /\
     forall (i : nat) giver,
       participants state_all_gifts !! i = Some giver ->
       exists recipient,
         participants state_all_gifts !! Z.to_nat ((Z.of_nat i + 1) mod 3)
           = Some recipient /\
         recipient <> giver /\
         revealedRecipients s' !! giver = Some recipient).
Proof.
  destruct (recipient_derivation_no_self_match_bijection 3 1)
    as (_ & _ & _ & Hquery & Hreveal).
  - split; [lia | vm_compute; discriminate].
  - lia.
  - split.
    + apply (Hquery state_all_gifts 11 0); try (vm_compute; reflexivity).
      * right. vm_compute. reflexivity.
      * lia.
    + apply (Hreveal state_all_gifts 460); try (vm_compute; reflexivity).
      * apply (inv_nodup _ (reachable_inv _ reachable_state_all_gifts)).
      * vm_compute. discriminate.
Defined.

(** C4. In any state of a deployed game and for any 32-bit offset:
    before [revealTime] every [triggerReveal] reverts (for the operator in
    phase WaitingReveal, with the message of the time check); from
    [revealTime] on, in phase WaitingReveal, the operator's call succeeds,
    moves to phase Revealed and stores, for every index [i] of the registry,
    the participant at index [(i + offset) mod count] as the revealed
    recipient of the participant at [i]; and after that success every later
    [triggerReveal], whatever calls come in between, reverts. *)
Theorem triggerReveal_after_reveal_time_once (s : State) (now decryptedOffset : Z) :
  reachable s ->
  0 <= decryptedOffset < UINT32_MOD ->
  (now < revealTime s ->
     (forall sender, exists e, triggerReveal sender now decryptedOffset s = Revert e) /\
     (currentPhase s = WaitingReveal ->
        triggerReveal (owner s) now decryptedOffset s =
          Revert (RequireFailed "Too early to reveal"))) /\
  (revealTime s <= now -> currentPhase s = WaitingReveal ->
     exists s',
       triggerReveal (owner s) now decryptedOffset s = Ok s' /\
       currentPhase s' = Revealed /\
       participants s' = participants s /\
       participantCount s' = participantCount s /\
       (forall (i : nat) giver,
          participants s !! i = Some giver ->
          exists recipient,
            participants s
              !! Z.to_nat ((Z.of_nat i + decryptedOffset) mod participantCount s)
              = Some recipient /\
            revealedRecipients s' !! giver = Some recipient) /\
       (forall cs s'' sender now' offset',
          run cs s' = Ok s'' ->
          exists e, triggerReveal sender now' offset' s'' = Revert e)).
Proof.
  intros Hreach Hoff. pose proof (reachable_inv s Hreach) as Hinv. split.
  - intros Hearly. split.
    + intros sender. apply triggerReveal_too_early. exact Hearly.
    + intros Hph. unfold triggerReveal, onlyOwner.
      rewrite (bool_decide_eq_true_2 (owner s = owner s)) by reflexivity.
      rewrite (bool_decide_eq_true_2 (currentPhase s = WaitingReveal)) by exact Hph.
      simpl.
      apply Z.leb_gt in Hearly. rewrite Hearly. reflexivity.
  - intros Htime Hph.
    destruct (triggerReveal_Ok now decryptedOffset s Hinv Hph Htime Hoff)
      as (s' & Hrun & Hph' & Hps & Hcount & _ & Hrec).
    exists s'. split_and!; try assumption.
    + intros i giver Hi.
      destruct (Hrec giver) as (j & r & Hj & Hr & Hres).
      { apply list_elem_of_lookup. eauto. }
      assert (j = i) as -> by (eapply NoDup_lookup; [apply (inv_nodup s Hinv) | eassumption..]).
      exists r. split; [exact Hr | exact Hres].
    + intros cs s'' sender now' offset' Hcs.
      pose proof (revealed_is_final_run cs s' s'' Hcs Hph') as Hfinal.
      rewrite triggerReveal_wrong_phase by (rewrite Hfinal; discriminate). eauto.
Qed.

Lemma triggerReveal_witness :
  exists s',
    triggerReveal (owner state_all_gifts) 460 1 state_all_gifts = Ok s' /\
    currentPhase s' = Revealed.
Proof.
  destruct (triggerReveal_after_reveal_time_once state_all_gifts 460 1
              reachable_state_all_gifts) as [_ Hlate].
  - unfold UINT32_MOD. lia.
  - destruct Hlate as (s' & Hrun & Hph & _).
    + vm_compute. discriminate.
    + vm_compute. reflexivity.
    + exists s'. split; [exact Hrun | exact Hph].
Defined.

(** C9. [triggerReveal] accepts any 32-bit offset: in a state of a deployed
    game in phase WaitingReveal, at or after [revealTime], an offset that is
    a multiple of the participant count (0 included) is accepted from the
    operator and makes every one of the (at least three) participants their
    own revealed recipient. *)
Theorem triggerReveal_accepts_identity_offset (s : State) (now decryptedOffset : Z) :
  reachable s ->
  currentPhase s = WaitingReveal ->
  revealTime s <= now ->
  0 <= decryptedOffset < UINT32_MOD ->
  decryptedOffset mod participantCount s = 0 ->
  exists s',
    triggerReveal (owner s) now decryptedOffset s = Ok s' /\
    currentPhase s' = Revealed /\
    revealedOffset s' = decryptedOffset /\
    participants s' = participants s /\
    3 <= Z.of_nat (length (participants s')) /\
    (forall a, a ∈ participants s' ->
       revealedRecipients s' !! a = Some a /\
       getWord (revealedRecipients s') a = a).
Proof.
  intros Hreach Hph Htime Hoff Hmod. pose proof (reachable_inv s Hreach) as Hinv.
  destruct (triggerReveal_Ok now decryptedOffset s Hinv Hph Htime Hoff)
    as (s' & Hrun & Hph' & Hps & Hcount & Hro & Hrec).
  pose proof (inv_phase s Hinv) as Hphase. unfold phase_inv, matched in Hphase.
  rewrite Hph in Hphase.
  pose proof (inv_limits s Hinv) as Hlim. pose proof (inv_length s Hinv) as Hlen.
  exists s'. split_and!; try assumption.
  - rewrite Hps. lia.
  - intros a Ha. rewrite Hps in Ha.
    destruct (Hrec a Ha) as (j & r & Hj & Hr & Hres).
    assert (Hjlt : (j < length (participants s))%nat) by (eapply lookup_lt_Some; eassumption).
    assert (Hidx : (Z.of_nat j + decryptedOffset) mod participantCount s = Z.of_nat j).
    { rewrite Z.add_mod by lia. rewrite Hmod, Z.add_0_r, Z.mod_mod by lia.
      apply Z.mod_small. lia. }
    rewrite Hidx, Nat2Z.id, Hj in Hr. inversion Hr; subst r.
    split; [exact Hres|]. unfold getWord. rewrite Hres. reflexivity.
Qed.

Lemma triggerReveal_identity_witness :
  exists s',
    triggerReveal (owner state_all_gifts) 460 3 state_all_gifts = Ok s' /\
    (forall a, a ∈ participants s' ->
       revealedRecipients s' !! a = Some a /\ getWord (revealedRecipients s') a = a).
Proof.
  destruct (triggerReveal_accepts_identity_offset state_all_gifts 460 3
              reachable_state_all_gifts) as (s' & Hrun & _ & _ & _ & _ & Hself).
  - vm_compute. reflexivity.
  - vm_compute. discriminate.
  - unfold UINT32_MOD. lia.
  - vm_compute. reflexivity.
  - exists s'. split; [exact Hrun | exact Hself].
Defined.

(** ** Gift submission *)



(** C6, as the code has it. In every state of a deployed game, a
    [submitGift] from a principal whose gift is already recorded reverts; the
    error is the duplicate-submission error only in phase GiftSubmission
    before the submission deadline; in GiftSubmission from the deadline on it
    is the deadline error, and in every other phase the wrong-phase error. *)
Theorem second_submitGift_reverts (s : State) (sender now giftValue : Z)
    (proofValid : bool) (uri : string) :
  reachable s ->
  getFlag (hasSubmittedGift s) sender = true ->
  submitGift sender now giftValue proofValid uri s =
    Revert (if bool_decide (currentPhase s = GiftSubmission)
            then (if giftSubmissionDeadline s <=? now then DeadlinePassed
                  else AlreadySubmittedGift)
            else InvalidPhase).
Proof.
  intros Hreach Hsub. pose proof (reachable_inv s Hreach) as Hinv.
  pose proof (inv_submitted s Hinv sender Hsub) as Hreg.
  unfold submitGift, onlyParticipant, inPhase. rewrite Hreg, Hsub.
  destruct (bool_decide (currentPhase s = GiftSubmission)); [|reflexivity].
  destruct (giftSubmissionDeadline s <=? now); reflexivity.
Qed.

Lemma second_submitGift_witness :
  submitGift 11 305 9 true "ipfs://again" state_one_gift = Revert AlreadySubmittedGift.
Proof.
  rewrite (second_submitGift_reverts state_one_gift 11 305 9 true "ipfs://again"
             reachable_state_one_gift).
  - vm_compute. reflexivity.
  - vm_compute. reflexivity.
Defined.

(** C6, as stated, fails: once all three gifts are in, the game is in
    WaitingReveal and a further [submitGift] by participant 11 reverts with
    the wrong-phase error; and in GiftSubmission at the deadline, a second
    [submitGift] by 11 reverts with the deadline error. *)
Lemma duplicate_submitGift_error_counterexample :
  getFlag (hasSubmittedGift state_all_gifts) 11 = true /\
  currentPhase state_all_gifts = WaitingReveal /\
  submitGift 11 330 5 true "ipfs://a" state_all_gifts = Revert InvalidPhase /\
  getFlag (hasSubmittedGift state_one_gift) 11 = true /\
  currentPhase state_one_gift = GiftSubmission /\
  submitGift 11 400 5 true "ipfs://a" state_one_gift = Revert DeadlinePassed /\
  InvalidPhase <> AlreadySubmittedGift /\ DeadlinePassed <> AlreadySubmittedGift.
Proof.
  split_and!; try (vm_compute; reflexivity); discriminate.
Qed.

(** ** Order of the checks *)

(** C7, as the code has it. In the wrong phase, [register] reverts with the
    wrong-phase error whoever calls; [startMatching] and [triggerReveal]
    check the caller first and give the wrong-phase error only to the owner,
    [OnlyOwner] to anyone else; [submitGift] checks registration first and
    gives the wrong-phase error only to a registered participant,
    [NotRegistered] to anyone else; [getMyRecipientEncrypted] checks
    registration, then that matching was generated, and only then the
    phase. *)
Theorem wrong_phase_errors_follow_caller_checks (s : State) :
  (forall sender value now,
     currentPhase s <> Registration ->
     register sender value now s = Revert InvalidPhase) /\
  (forall sender now raw,
     currentPhase s <> Registration ->
     startMatching sender now raw s =
       Revert (if bool_decide (sender = owner s) then InvalidPhase else OnlyOwner)) /\
  (forall sender now giftValue proofValid uri,
     currentPhase s <> GiftSubmission ->
     submitGift sender now giftValue proofValid uri s =
       Revert (if getFlag (isParticipant s) sender then InvalidPhase else NotRegistered)) /\
  (forall sender,
     currentPhase s <> GiftSubmission -> currentPhase s <> WaitingReveal ->
     getMyRecipientEncrypted sender s =
       Revert (if getFlag (isParticipant s) sender
               then (if matchingGenerated s
                     then RequireFailed "Cannot query recipient in this phase"
                     else RequireFailed "Matching not yet generated")
               else NotRegistered)) /\
  (forall sender now decryptedOffset,
     currentPhase s <> WaitingReveal ->
     triggerReveal sender now decryptedOffset s =
       Revert (if bool_decide (sender = owner s)
               then RequireFailed "Not ready for reveal" else OnlyOwner)).
Proof.
  split_and!.
  - intros sender value now Hph. unfold register, inPhase.
    rewrite (bool_decide_eq_false_2 (currentPhase s = Registration)) by exact Hph.
    reflexivity.
  - intros sender now raw Hph. unfold startMatching, onlyOwner, inPhase.
    rewrite (bool_decide_eq_false_2 (currentPhase s = Registration)) by exact Hph.
    destruct (bool_decide (sender = owner s)); reflexivity.
  - intros sender now giftValue proofValid uri Hph.
    unfold submitGift, onlyParticipant, inPhase.
    rewrite (bool_decide_eq_false_2 (currentPhase s = GiftSubmission)) by exact Hph.
    destruct (getFlag (isParticipant s) sender); reflexivity.
  - intros sender Hph1 Hph2. unfold getMyRecipientEncrypted, onlyParticipant.
    rewrite (bool_decide_eq_false_2 (currentPhase s = GiftSubmission)) by exact Hph1.
    rewrite (bool_decide_eq_false_2 (currentPhase s = WaitingReveal)) by exact Hph2.
    destruct (getFlag (isParticipant s) sender); [|reflexivity].
    destruct (matchingGenerated s); reflexivity.
  - intros sender now decryptedOffset Hph. apply triggerReveal_wrong_phase. exact Hph.
Qed.

Lemma wrong_phase_errors_witness :
  register 14 1 290 state_matched = Revert InvalidPhase /\
  startMatching 1000 290 7 state_matched = Revert InvalidPhase /\
  submitGift 11 330 5 true "ipfs://a" state_all_gifts = Revert InvalidPhase /\
  getMyRecipientEncrypted 11 state_revealed =
    Revert (RequireFailed "Cannot query recipient in this phase") /\
  triggerReveal 1000 460 1 state_matched = Revert (RequireFailed "Not ready for reveal").
Proof.
  split_and!.
  - apply (wrong_phase_errors_follow_caller_checks state_matched).
    vm_compute. discriminate.
  - rewrite (proj1 (proj2 (wrong_phase_errors_follow_caller_checks state_matched)))
      by (vm_compute; discriminate).
    reflexivity.
  - rewrite (proj1 (proj2 (proj2 (wrong_phase_errors_follow_caller_checks state_all_gifts))))
      by (vm_compute; discriminate).
    reflexivity.
  - rewrite (proj1 (proj2 (proj2 (proj2
               (wrong_phase_errors_follow_caller_checks state_revealed)))))
      by (vm_compute; discriminate).
    reflexivity.
  - rewrite (proj2 (proj2 (proj2 (proj2
               (wrong_phase_errors_follow_caller_checks state_matched)))))
      by (vm_compute; discriminate).
    reflexivity.
Defined.

(** C7, as stated, fails for four of the five operations: in the wrong
    phase a stranger calling [startMatching] or [triggerReveal] gets
    [OnlyOwner], an unregistered caller of [submitGift] or
    [getMyRecipientEncrypted] gets [NotRegistered], and a registered caller
    of [getMyRecipientEncrypted] during Registration gets the
    matching-not-generated error. *)
Lemma phase_checked_first_counterexample :
  currentPhase state_matched = GiftSubmission /\
  startMatching 11 290 7 state_matched = Revert OnlyOwner /\
  triggerReveal 11 460 1 state_matched = Revert OnlyOwner /\
  currentPhase state_all_gifts = WaitingReveal /\
  submitGift 99 330 5 true "ipfs://x" state_all_gifts = Revert NotRegistered /\
  currentPhase (after registrations genesis) = Registration /\
  getMyRecipientEncrypted 99 (after registrations genesis) = Revert NotRegistered /\
  getMyRecipientEncrypted 11 (after registrations genesis) =
    Revert (RequireFailed "Matching not yet generated").
Proof.
  split_and!; vm_compute; reflexivity.
Qed.

(** ** Construction *)

(** C8, as the code has it. For a creation time and durations that are
    non-negative, a game the constructor accepts has each deadline equal to
    the previous one plus its duration, hence registration deadline <=
    gift-submission deadline <= reveal time, each inequality strict exactly
    when the duration between them is positive; and 3 <= min <= max <= 256. *)
Theorem constructor_configuration
    (sender now rp gp rd fee mn mx : Z) (s : State) :
  0 <= now -> 0 <= rp -> 0 <= gp -> 0 <= rd ->
  constructor sender now rp gp rd fee mn mx = Ok s ->
  registrationDeadline s = now + rp /\
  giftSubmissionDeadline s = registrationDeadline s + gp /\
  revealTime s = giftSubmissionDeadline s + rd /\
  registrationDeadline s <= giftSubmissionDeadline s <= revealTime s /\
  (registrationDeadline s < giftSubmissionDeadline s <-> 0 < gp) /\
  (giftSubmissionDeadline s < revealTime s <-> 0 < rd) /\
  minParticipants s = mn /\ maxParticipants s = mx /\
  3 <= minParticipants s /\
  minParticipants s <= maxParticipants s /\
  maxParticipants s <= 256.
Proof.
  intros Hnow Hrp Hgp Hrd H. unfold constructor in H. peel H.
  apply add256_inv in Hg2 as [-> _]. apply add256_inv in Hg3 as [-> _].
  apply add256_inv in Hg4 as [-> _].
  apply Z.leb_le in Hg, Hg0, Hg1.
  inversion H; subst; clear H. simpl.
  split_and!; try reflexivity; try lia.
Qed.

Lemma constructor_configuration_witness :
  registrationDeadline genesis = 100 + 180 /\
  giftSubmissionDeadline genesis = registrationDeadline genesis + 120 /\
  revealTime genesis = giftSubmissionDeadline genesis + 60 /\
  registrationDeadline genesis <= giftSubmissionDeadline genesis <= revealTime genesis /\
  (registrationDeadline genesis < giftSubmissionDeadline genesis <-> 0 < 120) /\
  (giftSubmissionDeadline genesis < revealTime genesis <-> 0 < 60) /\
  minParticipants genesis = 3 /\ maxParticipants genesis = 5 /\
  3 <= minParticipants genesis /\
  minParticipants genesis <= maxParticipants genesis /\
  maxParticipants genesis <= 256.
Proof.
  apply (constructor_configuration 1000 100 180 120 60 1 3 5 genesis); try lia.
  reflexivity.
Defined.

(** C8, as stated, fails for durations equal to 0, which the constructor
    accepts: the three deadlines then coincide. *)
Lemma constructor_equal_deadlines_counterexample :
  constructor 1000 100 0 0 0 1 3 5 = Ok state_zero_periods /\
  registrationDeadline state_zero_periods = 100 /\
  giftSubmissionDeadline state_zero_periods = 100 /\
  revealTime state_zero_periods = 100 /\
  ~ registrationDeadline state_zero_periods < giftSubmissionDeadline state_zero_periods /\
  ~ giftSubmissionDeadline state_zero_periods < revealTime state_zero_periods.
Proof.
  split_and!; try reflexivity; simpl; lia.
Qed.

(** ** Revealing gift values *)

(** C10. In phase Revealed, for a registered participant [p] and any two
    values, the operator's [revealGift p v1] succeeds and records [v1], a
    following [revealGift p v2] succeeds too and leaves [v2] recorded; there
    is no condition on [p]'s gift-submitted flag, which is neither read nor
    written. *)
Theorem revealGift_overwrites (s : State) (p v1 v2 : Z) :
  currentPhase s = Revealed ->
  getFlag (isParticipant s) p = true ->
  exists s1 s2,
    revealGift (owner s) p v1 s = Ok s1 /\
    getWord (revealedGiftValues s1) p = v1 /\
    revealGift (owner s1) p v2 s1 = Ok s2 /\
    getWord (revealedGiftValues s2) p = v2 /\
    currentPhase s2 = Revealed /\
    hasSubmittedGift s2 = hasSubmittedGift s.
Proof.
  intros Hph Hreg.
  assert (Hcall : forall st v, currentPhase st = Revealed ->
            getFlag (isParticipant st) p = true ->
            revealGift (owner st) p v st =
              Ok (set_revealedGiftValues (<[p := v]> (revealedGiftValues st)) st)).
  { intros st v Hp Hr. unfold revealGift, onlyOwner.
    rewrite (bool_decide_eq_true_2 (owner st = owner st)) by reflexivity.
    rewrite (bool_decide_eq_true_2 (currentPhase st = Revealed)) by exact Hp.
    rewrite Hr. reflexivity. }
  exists (set_revealedGiftValues (<[p := v1]> (revealedGiftValues s)) s).
  eexists. split_and!.
  - apply Hcall; assumption.
  - simpl. apply getWord_insert_eq.
  - apply Hcall; assumption.
  - simpl. apply getWord_insert_eq.
  - exact Hph.
  - reflexivity.
Qed.

Lemma revealGift_overwrites_witness :
  exists s1 s2,
    revealGift (owner state_revealed) 11 5 state_revealed = Ok s1 /\
    getWord (revealedGiftValues s1) 11 = 5 /\
    revealGift (owner s1) 11 77 s1 = Ok s2 /\
    getWord (revealedGiftValues s2) 11 = 77 /\
    currentPhase s2 = Revealed /\
    hasSubmittedGift s2 = hasSubmittedGift state_revealed.
Proof.
  apply (revealGift_overwrites state_revealed 11 5 77).
  - vm_compute. reflexivity.
  - vm_compute. reflexivity.
Defined.

(** [revealGift] on a storage where the participant has no recorded gift. *)
Example revealGift_without_gift :
  getFlag (hasSubmittedGift state_revealed_no_gifts) 12 = false /\
  getWord (revealedGiftValues
             (after [CallRevealGift 1000 12 41; CallRevealGift 1000 12 42]
                state_revealed_no_gifts)) 12 = 42.
Proof. split; vm_compute; reflexivity. Qed.

(** * Further properties of the contract *)

(** ** The registry *)

(** In every state of a deployed game the registry is well formed: the
    participant list has no duplicates and as many entries as
    [participantCount], which never exceeds [maxParticipants] (itself at
    most 256), and [isRegistered] holds exactly of the listed addresses. *)
Theorem registry_well_formed (s : State) :
  reachable s ->
  NoDup (getParticipants s) /\
  Z.of_nat (length (getParticipants s)) = participantCount s /\
  participantCount s <= maxParticipants s <= 256 /\
  (forall a, isRegistered a s = true <-> a ∈ getParticipants s).
Proof.
  intros Hreach. pose proof (reachable_inv s Hreach) as Hinv.
  pose proof (inv_limits s Hinv). pose proof (inv_capacity s Hinv).
  split_and!; try lia.
  - apply (inv_nodup s Hinv).
  - apply (inv_length s Hinv).
  - apply (inv_registered s Hinv).
Qed.

Lemma registry_well_formed_witness :
  NoDup (getParticipants state_matched) /\
  Z.of_nat (length (getParticipants state_matched)) = participantCount state_matched /\
  participantCount state_matched <= maxParticipants state_matched <= 256 /\
  (forall a, isRegistered a state_matched = true <-> a ∈ getParticipants state_matched).
Proof. apply (registry_well_formed state_matched reachable_state_matched). Defined.

Lemma getParticipantByIndex_Ok s (i : nat) a :
  Z.of_nat (length (participants s)) = participantCount s ->
  participants s !! i = Some a ->
  getParticipantByIndex (Z.of_nat i) s = Ok a.
Proof.
  intros Hlen Hi. unfold getParticipantByIndex.
  assert (Hlt : (i < length (participants s))%nat) by (eapply lookup_lt_Some; eassumption).
  assert (Hb : (Z.of_nat i <? participantCount s) = true) by (apply Z.ltb_lt; lia).
  rewrite Hb. cbn [require mbind result_bind]. apply array_get_Ok. exact Hi.
Qed.

(** [getParticipantByIndex] and [participantIndex] are inverse to each
    other in every state of a deployed game: an index below the count yields
    a registered address whose recorded index is that index, a registered
    address is found at its recorded index, two different indices yield
    different addresses, and an index from the count on is refused. *)
Theorem participant_index_round_trip (s : State) :
  reachable s ->
  (forall i, 0 <= i < participantCount s ->
     exists a, getParticipantByIndex i s = Ok a /\
               isRegistered a s = true /\
               getWord (participantIndex s) a = i) /\
  (forall a, isRegistered a s = true ->
     0 <= getWord (participantIndex s) a < participantCount s /\
     getParticipantByIndex (getWord (participantIndex s) a) s = Ok a) /\
  (forall i j a, 0 <= i -> 0 <= j ->
     getParticipantByIndex i s = Ok a -> getParticipantByIndex j s = Ok a -> i = j) /\
  (forall i, participantCount s <= i ->
     getParticipantByIndex i s = Revert (RequireFailed "Index out of bounds")).
Proof.
  intros Hreach. pose proof (reachable_inv s Hreach) as Hinv.
  pose proof (inv_length s Hinv) as Hlen.
  split_and!.
  - intros i Hi.
    assert (Hlt : (Z.to_nat i < length (participants s))%nat) by lia.
    destruct (lookup_lt_is_Some_2 _ _ Hlt) as [a Ha].
    exists a. split_and!.
    + rewrite <- (Z2Nat.id i) by lia. apply getParticipantByIndex_Ok; assumption.
    + apply (inv_registered s Hinv). apply list_elem_of_lookup. eauto.
    + rewrite (inv_index s Hinv _ _ Ha). lia.
  - intros a Ha. apply (inv_registered s Hinv) in Ha.
    apply list_elem_of_lookup in Ha as [i Hi].
    assert (Hlt : (i < length (participants s))%nat) by (eapply lookup_lt_Some; eassumption).
    rewrite (inv_index s Hinv _ _ Hi). split; [lia|].
    apply getParticipantByIndex_Ok; assumption.
  - intros i j a Hi Hj Hia Hja.
    unfold getParticipantByIndex in Hia, Hja. peel Hia. peel Hja.
    unfold array_get in Hia, Hja.
    destruct (participants s !! Z.to_nat i) as [x|] eqn:Ei; [|discriminate].
    destruct (participants s !! Z.to_nat j) as [y|] eqn:Ej; [|discriminate].
    inversion Hia; inversion Hja; subst.
    pose proof (NoDup_lookup _ _ _ _ (inv_nodup s Hinv) Ei Ej). lia.
  - intros i Hi. unfold getParticipantByIndex.
    assert (Hb : (i <? participantCount s) = false) by (apply Z.ltb_ge; lia).
    rewrite Hb. reflexivity.
Qed.

Lemma participant_index_round_trip_witness :
  exists a, getParticipantByIndex 2 state_matched = Ok a /\
            isRegistered a state_matched = true /\
            getWord (participantIndex state_matched) a = 2.
Proof.
  destruct (participant_index_round_trip state_matched reachable_state_matched)
    as (Hfwd & _).
  apply Hfwd. vm_compute. split; [discriminate | reflexivity].
Defined.

(** What a successful call does to the registry: nothing, unless it is a
    [register] made during Registration, which appends the caller. *)
Lemma exec_registry c s s' :
  exec c s = Ok s' ->
  (participants s' = participants s /\ isParticipant s' = isParticipant s /\
   participantIndex s' = participantIndex s /\ participantCount s' = participantCount s) \/
  (exists sender value now,
     c = CallRegister sender value now /\ currentPhase s = Registration /\
     getFlag (isParticipant s) sender = false /\
     participants s' = participants s ++ [sender] /\
     isParticipant s' = <[sender := true]> (isParticipant s) /\
     participantIndex s' = <[sender := participantCount s]> (participantIndex s) /\
     participantCount s' = participantCount s + 1).
Proof.
  intros H. destruct c; simpl in H.
  - right. unfold register in H. peel H. apply add256_inv in Hg4 as [-> _].
    inversion H; subst. exists sender, value, now. split_and!; try reflexivity; assumption.
  - left. unfold startMatching in H. peel H. unfold _generateMatches in Hg3. peel Hg3.
    inversion Hg3; subst. inversion H; subst. split_and!; reflexivity.
  - left. peel H. inversion H; subst. split_and!; reflexivity.
  - left. unfold submitGift in H. peel H. simpl in H.
    destruct (u4 =? participantCount s); inversion H; subst; split_and!; reflexivity.
  - left. unfold triggerReveal in H. peel H.
    apply reveal_loop_frame in Hg2 as (m & log & ->).
    inversion H; subst. split_and!; reflexivity.
  - left. unfold revealGift in H. peel H. inversion H; subst. split_and!; reflexivity.
Qed.

(** Registration is permanent: along any sequence of successful calls the
    participant list only grows at its end, a registered address stays
    registered with the same index, and once the phase has left
    Registration the list does not change at all. *)
Theorem registration_is_permanent (cs : list Call) : forall (s s' : State),
  run cs s = Ok s' ->
  participants s `prefix_of` participants s' /\
  (forall a, isRegistered a s = true ->
     isRegistered a s' = true /\
     getWord (participantIndex s') a = getWord (participantIndex s) a) /\
  (currentPhase s <> Registration -> participants s' = participants s).
Proof.
  induction cs as [|c cs IH]; intros s s' H; simpl in H.
  - inversion H; subst. split_and!; [reflexivity | auto | reflexivity].
  - apply bind_Ok in H as (s1 & Hc & H).
    destruct (IH s1 s' H) as (Hpre & Hkeep & Hfrozen).
    pose proof (exec_effect c s s1 Hc) as Heff.
    destruct (exec_registry c s s1 Hc)
      as [(Hps & Hisp & Hidx & Hcnt)
         |(sender & value & now & -> & Hph & Hfresh & Hps & Hisp & Hidx & Hcnt)].
    + split_and!.
      * rewrite <- Hps. exact Hpre.
      * intros a Ha. unfold isRegistered in *. rewrite <- Hisp in Ha.
        destruct (Hkeep a Ha) as [? ?]. split; [assumption|]. rewrite <- Hidx. assumption.
      * intros Hnr. rewrite <- Hps. apply Hfrozen.
        intros Hreg1. apply Hnr. destruct c.
        -- destruct Heff as [? _]. assumption.
        -- destruct Heff as [? _]. assumption.
        -- subst. assumption.
        -- destruct Heff as (_ & _ & _ & _ & _ & Hph1). rewrite Hph1 in Hreg1.
           destruct (giftsSubmittedCount s1 =? participantCount s1); discriminate.
        -- destruct Heff as [_ Hph1]. congruence.
        -- destruct Heff as [_ Hph1]. congruence.
    + split_and!.
      * etransitivity; [|exact Hpre]. rewrite Hps. apply prefix_app_r. reflexivity.
      * intros a Ha. unfold isRegistered in *.
        assert (Hne : sender <> a) by (intros ->; congruence).
        destruct (Hkeep a) as [? Hi1].
        { rewrite Hisp, getFlag_insert_ne by exact Hne. exact Ha. }
        split; [assumption|]. rewrite Hi1, Hidx. apply getWord_insert_ne. exact Hne.
      * intros Hnr. contradiction.
Qed.

(** ** Phases *)

Lemma exec_phase_monotone c s s' :
  exec c s = Ok s' -> phaseIndex (currentPhase s) <= phaseIndex (currentPhase s').
Proof.
  intros H. apply exec_effect in H. destruct c.
  - destruct H as [-> ->]. reflexivity.
  - destruct H as [-> ->]. simpl. lia.
  - subst. reflexivity.
  - destruct H as (-> & _ & _ & _ & _ & ->).
    destruct (giftsSubmittedCount s' =? participantCount s'); simpl; lia.
  - destruct H as [-> ->]. simpl. lia.
  - destruct H as [-> ->]. reflexivity.
Qed.

(** The phase never goes back: in a deployed game no state is in the
    transient phase Matching, and along any sequence of successful calls the
    phase number does not decrease. *)
Theorem phase_never_goes_back (s : State) :
  reachable s ->
  currentPhase s <> Matching /\
  (forall cs s', run cs s = Ok s' ->
     phaseIndex (currentPhase s) <= phaseIndex (currentPhase s')).
Proof.
  intros Hreach. split.
  - pose proof (inv_phase s (reachable_inv s Hreach)) as Hph. unfold phase_inv in Hph.
    intros E. rewrite E in Hph. exact Hph.
  - clear Hreach. intros cs. revert s.
    induction cs as [|c cs IH]; intros s s' H; simpl in H.
    + inversion H; subst. reflexivity.
    + apply bind_Ok in H as (s1 & Hc & H).
      pose proof (exec_phase_monotone c s s1 Hc). pose proof (IH s1 s' H). lia.
Qed.

Lemma phase_never_goes_back_witness :
  currentPhase state_matched <> Matching /\
  (forall cs s', run cs state_matched = Ok s' ->
     phaseIndex (currentPhase state_matched) <= phaseIndex (currentPhase s')).
Proof. apply (phase_never_goes_back state_matched reachable_state_matched). Defined.

(** ** Matching happens once *)

Lemma exec_matching_kept c s s' :
  exec c s = Ok s' -> matchingGenerated s = true ->
  matchingGenerated s' = true /\ encryptedMatchingOffset s' = encryptedMatchingOffset s.
Proof.
  intros H Hgen. destruct c; simpl in H.
  - unfold register in H. peel H. inversion H; subst. split; [exact Hgen | reflexivity].
  - unfold startMatching in H. peel H. unfold _generateMatches in Hg3. peel Hg3.
    simpl in Hg4. rewrite Hgen in Hg4. discriminate.
  - peel H. inversion H; subst. split; [exact Hgen | reflexivity].
  - unfold submitGift in H. peel H. simpl in H.
    destruct (u4 =? participantCount s); inversion H; subst;
      (split; [exact Hgen | reflexivity]).
  - unfold triggerReveal in H. peel H.
    apply reveal_loop_frame in Hg2 as (m & log & ->).
    inversion H; subst. split; [exact Hgen | reflexivity].
  - unfold revealGift in H. peel H. inversion H; subst. split; [exact Hgen | reflexivity].
Qed.

(** The offset is generated once: in a deployed game whose phase has left
    Registration, matching is marked generated with an offset in
    [[1, count-1]], every [startMatching] reverts, and no sequence of
    successful calls changes the stored offset. *)
Theorem matching_offset_never_regenerated (s : State) :
  reachable s ->
  currentPhase s <> Registration ->
  matchingGenerated s = true /\
  1 <= encryptedMatchingOffset s <= participantCount s - 1 /\
  (forall sender now raw, exists e, startMatching sender now raw s = Revert e) /\
  (forall cs s', run cs s = Ok s' ->
     matchingGenerated s' = true /\
     encryptedMatchingOffset s' = encryptedMatchingOffset s).
Proof.
  intros Hreach Hph. pose proof (reachable_inv s Hreach) as Hinv.
  pose proof (inv_phase s Hinv) as Hphase. unfold phase_inv, matched in Hphase.
  assert (Hm : matchingGenerated s = true /\
               1 <= encryptedMatchingOffset s <= participantCount s - 1).
  { destruct (currentPhase s); try contradiction; try tauto. }
  destruct Hm as [Hgen Hoff]. split_and!; try lia; try assumption.
  - intros sender now raw. unfold startMatching, onlyOwner, inPhase.
    rewrite (bool_decide_eq_false_2 (currentPhase s = Registration)) by exact Hph.
    destruct (bool_decide (sender = owner s)); simpl; eauto.
  - clear Hreach Hinv Hphase Hph Hoff. intros cs. revert s Hgen.
    induction cs as [|c cs IH]; intros s Hgen s' H; simpl in H.
    + inversion H; subst. split; [exact Hgen | reflexivity].
    + apply bind_Ok in H as (s1 & Hc & H).
      destruct (exec_matching_kept c s s1 Hc Hgen) as [Hgen1 Hoff1].
      destruct (IH s1 Hgen1 s' H) as [? ?]. split; [assumption | congruence].
Qed.

Lemma matching_offset_never_regenerated_witness :
  matchingGenerated state_matched = true /\
  1 <= encryptedMatchingOffset state_matched <= participantCount state_matched - 1 /\
  (forall sender now raw, exists e, startMatching sender now raw state_matched = Revert e) /\
  (forall cs s', run cs state_matched = Ok s' ->
     matchingGenerated s' = true /\
     encryptedMatchingOffset s' = encryptedMatchingOffset state_matched).
Proof.
  apply (matching_offset_never_regenerated state_matched reachable_state_matched).
  vm_compute. discriminate.
Defined.

(** In a deployed game [startMatching] succeeds exactly when the caller is
    the owner, the phase is Registration, the registration deadline has
    passed or the game is full, and the minimum number of participants is
    reached; the guard against a second generation inside
    [_generateMatches] never fires. *)
Theorem startMatching_succeeds_iff (s : State) (sender now raw : Z) :
  reachable s ->
  ((exists s', startMatching sender now raw s = Ok s') <->
   sender = owner s /\ currentPhase s = Registration /\
   (registrationDeadline s <= now \/ maxParticipants s <= participantCount s) /\
   minParticipants s <= participantCount s) /\
  startMatching sender now raw s <> Revert (RequireFailed "Matches already generated").
Proof.
  intros Hreach. pose proof (reachable_inv s Hreach) as Hinv.
  pose proof (inv_phase s Hinv) as Hphase. unfold phase_inv in Hphase.
  assert (Hsucc : sender = owner s -> currentPhase s = Registration ->
            (registrationDeadline s <= now \/ maxParticipants s <= participantCount s) ->
            minParticipants s <= participantCount s ->
            exists s', startMatching sender now raw s = Ok s').
  { intros Ho Hph Hd Hmin. rewrite Hph in Hphase. destruct Hphase as (Hgen & _).
    unfold startMatching, onlyOwner, inPhase, _generateMatches.
    rewrite (bool_decide_eq_true_2 (sender = owner s)) by exact Ho.
    rewrite (bool_decide_eq_true_2 (currentPhase s = Registration)) by exact Hph.
    assert (Hb1 : (now <? registrationDeadline s)
                  && (participantCount s <? maxParticipants s) = false).
    { apply andb_false_iff. destruct Hd; [left | right]; apply Z.ltb_ge; lia. }
    assert (Hb2 : (participantCount s <? minParticipants s) = false)
      by (apply Z.ltb_ge; lia).
    rewrite Hb1, Hb2. simpl. rewrite Hgen. simpl. eauto. }
  split; [split|].
  - intros [s' H]. unfold startMatching in H. peel H.
    apply andb_false_iff in Hg1. apply Z.ltb_ge in Hg2.
    split_and!; try assumption.
    destruct Hg1 as [Hd|Hd]; apply Z.ltb_ge in Hd; [left | right]; lia.
  - intros (Ho & Hph & Hd & Hmin). apply Hsucc; assumption.
  - intros Hbad.
    destruct (decide (sender = owner s)) as [Ho|Ho].
    2:{ unfold startMatching, onlyOwner in Hbad.
        rewrite (bool_decide_eq_false_2 (sender = owner s)) in Hbad by exact Ho.
        discriminate. }
    destruct (decide (currentPhase s = Registration)) as [Hph|Hph].
    2:{ unfold startMatching, onlyOwner, inPhase in Hbad.
        rewrite (bool_decide_eq_true_2 (sender = owner s)) in Hbad by exact Ho.
        rewrite (bool_decide_eq_false_2 (currentPhase s = Registration)) in Hbad
          by exact Hph.
        discriminate. }
    unfold startMatching, onlyOwner, inPhase in Hbad.
    rewrite (bool_decide_eq_true_2 (sender = owner s)) in Hbad by exact Ho.
    rewrite (bool_decide_eq_true_2 (currentPhase s = Registration)) in Hbad by exact Hph.
    rewrite Hph in Hphase. destruct Hphase as (Hgen & _).
    destruct ((now <? registrationDeadline s) && (participantCount s <? maxParticipants s));
      [discriminate|].
    destruct (participantCount s <? minParticipants s); [discriminate|].
    unfold _generateMatches in Hbad. simpl in Hbad. rewrite Hgen in Hbad. discriminate.
Qed.

Lemma startMatching_succeeds_iff_witness :
  exists s', startMatching 1000 280 7 (after registrations genesis) = Ok s'.
Proof.
  apply (startMatching_succeeds_iff (after registrations genesis) 1000 280 7).
  - apply reachable_after, reachable_genesis.
  - vm_compute. split_and!; try reflexivity; try discriminate. left. discriminate.
Defined.

(** ** The gift ledger *)

Lemma filter_flags_none (m : gmap Z bool) (l : list Z) :
  (forall a, getFlag m a = false) ->
  filter (fun a => getFlag m a = true) l = [].
Proof.
  intros Hnone. induction l as [|x l IH]; [reflexivity|].
  rewrite filter_cons_False by (rewrite Hnone; discriminate). exact IH.
Qed.

Lemma filter_flag_insert_absent (m : gmap Z bool) (a : Z) (l : list Z) :
  a ∉ l ->
  filter (fun x => getFlag (<[a := true]> m) x = true) l =
  filter (fun x => getFlag m x = true) l.
Proof.
  induction l as [|x l IH]; intros Ha; [reflexivity|].
  apply not_elem_of_cons in Ha as [Hne Ha].
  rewrite !filter_cons. rewrite getFlag_insert_ne by exact Hne.
  rewrite IH by exact Ha. reflexivity.
Qed.

Lemma length_filter_flag_insert (m : gmap Z bool) (a : Z) (l : list Z) :
  NoDup l -> a ∈ l -> getFlag m a = false ->
  length (filter (fun x => getFlag (<[a := true]> m) x = true) l) =
  S (length (filter (fun x => getFlag m x = true) l)).
Proof.
  induction l as [|x l IH]; intros Hnd Ha Hflag; [inversion Ha|].
  apply NoDup_cons in Hnd as [Hx Hnd].
  destruct (decide (a = x)) as [->|Hne].
  - rewrite filter_cons_True by apply getFlag_insert_eq.
    rewrite filter_cons_False by (rewrite Hflag; discriminate).
    rewrite filter_flag_insert_absent by exact Hx. reflexivity.
  - apply elem_of_cons in Ha as [Ha|Ha]; [contradiction|].
    rewrite !filter_cons. rewrite getFlag_insert_ne by exact Hne.
    destruct (decide (getFlag m x = true)); simpl; rewrite IH by assumption; reflexivity.
Qed.

Lemma filter_full_length {A} (P : A -> Prop) `{forall x, Decision (P x)} (l : list A) :
  length (filter P l) = length l -> forall x, x ∈ l -> P x.
Proof.
  induction l as [|y l IH]; intros Hlen x Hx; [inversion Hx|].
  rewrite filter_cons in Hlen. destruct (decide (P y)) as [Hy|Hy].
  - simpl in Hlen. apply elem_of_cons in Hx as [->|Hx]; [exact Hy|].
    apply IH; [lia | exact Hx].
  - pose proof (length_filter P l). simpl in Hlen. lia.
Qed.

Lemma gift_count_exec c s s' :
  inv s ->
  giftsSubmittedCount s = Z.of_nat (length (submittedParticipants s)) ->
  exec c s = Ok s' ->
  giftsSubmittedCount s' = Z.of_nat (length (submittedParticipants s')).
Proof.
  intros Hinv Hcnt H. unfold submittedParticipants in *. destruct c; simpl in H.
  - unfold register in H. peel H. inversion H; subst. simpl.
    pose proof (inv_phase s Hinv) as Hph. unfold phase_inv in Hph. rewrite Hg in Hph.
    destruct Hph as (_ & Hzero & Hnone).
    rewrite filter_flags_none by exact Hnone. simpl. exact Hzero.
  - unfold startMatching in H. peel H. unfold _generateMatches in Hg3. peel Hg3.
    inversion Hg3; subst. inversion H; subst. exact Hcnt.
  - peel H. inversion H; subst. exact Hcnt.
  - unfold submitGift in H. peel H. apply add256_inv in Hg4 as [-> _].
    assert (Hin : sender ∈ participants s) by (apply (inv_registered s Hinv); exact Hg).
    assert (Hlen :
      giftsSubmittedCount s + 1 =
      Z.of_nat (length (filter
        (fun a => getFlag (<[sender := true]> (hasSubmittedGift s)) a = true)
        (participants s)))).
    { rewrite length_filter_flag_insert;
        [lia | apply (inv_nodup s Hinv) | exact Hin | exact Hg2]. }
    simpl in H.
    destruct (giftsSubmittedCount s + 1 =? participantCount s);
      inversion H; subst; exact Hlen.
  - unfold triggerReveal in H. peel H.
    apply reveal_loop_frame in Hg2 as (m & log & ->).
    inversion H; subst. exact Hcnt.
  - unfold revealGift in H. peel H. inversion H; subst. exact Hcnt.
Qed.

Lemma reachable_gift_count s :
  reachable s -> giftsSubmittedCount s = Z.of_nat (length (submittedParticipants s)).
Proof.
  induction 1 as [sender now rp gp rd fee mn mx s Hnow Hrp Hgp Hrd Hc | c s s' Hr IH Hstep].
  - unfold constructor in Hc. peel Hc. inversion Hc; subst. reflexivity.
  - eapply gift_count_exec; [apply reachable_inv; exact Hr | exact IH | exact Hstep].
Qed.

(** The gift counter counts submitters: in every state of a deployed game
    [getGiftsSubmittedCount] is the number of registered participants whose
    gift is recorded; hence in WaitingReveal and in Revealed every
    registered participant has a recorded gift. *)
Theorem gifts_counter_counts_submitters (s : State) :
  reachable s ->
  getGiftsSubmittedCount s = Z.of_nat (length (submittedParticipants s)) /\
  (currentPhase s = WaitingReveal \/ currentPhase s = Revealed ->
   forall a, isRegistered a s = true -> getFlag (hasSubmittedGift s) a = true).
Proof.
  intros Hreach. pose proof (reachable_inv s Hreach) as Hinv.
  pose proof (reachable_gift_count s Hreach) as Hcnt. split; [exact Hcnt|].
  intros Hph a Ha.
  pose proof (inv_phase s Hinv) as Hphase. unfold phase_inv in Hphase.
  assert (Hall : giftsSubmittedCount s = participantCount s).
  { destruct Hph as [Hp|Hp]; rewrite Hp in Hphase; apply Hphase. }
  pose proof (inv_length s Hinv) as Hlen.
  apply (filter_full_length (fun a => getFlag (hasSubmittedGift s) a = true)
           (participants s)).
  - unfold submittedParticipants in Hcnt. lia.
  - apply (inv_registered s Hinv). exact Ha.
Qed.

Lemma gifts_counter_counts_submitters_witness :
  getGiftsSubmittedCount state_one_gift
    = Z.of_nat (length (submittedParticipants state_one_gift)) /\
  (currentPhase state_one_gift = WaitingReveal \/ currentPhase state_one_gift = Revealed ->
   forall a, isRegistered a state_one_gift = true ->
             getFlag (hasSubmittedGift state_one_gift) a = true).
Proof. apply (gifts_counter_counts_submitters state_one_gift reachable_state_one_gift). Defined.

Lemma exec_gift_record c s s' a :
  exec c s = Ok s' -> getFlag (hasSubmittedGift s) a = true ->
  getFlag (hasSubmittedGift s') a = true /\
  encryptedGiftValues s' !! a = encryptedGiftValues s !! a /\
  giftMetadataURIs s' !! a = giftMetadataURIs s !! a.
Proof.
  intros H Ha. destruct c; simpl in H.
  - unfold register in H. peel H. inversion H; subst. auto.
  - unfold startMatching in H. peel H. unfold _generateMatches in Hg3. peel Hg3.
    inversion Hg3; subst. inversion H; subst. auto.
  - peel H. inversion H; subst. auto.
  - unfold submitGift in H. peel H.
    assert (Hne : sender <> a) by (intros ->; congruence).
    simpl in H.
    destruct (u4 =? participantCount s); inversion H; subst; simpl;
      rewrite getFlag_insert_ne by exact Hne; rewrite !lookup_insert_ne by exact Hne; auto.
  - unfold triggerReveal in H. peel H.
    apply reveal_loop_frame in Hg2 as (m & log & ->).
    inversion H; subst. auto.
  - unfold revealGift in H. peel H. inversion H; subst. auto.
Qed.

Lemma run_gift_record cs a : forall s s',
  run cs s = Ok s' -> getFlag (hasSubmittedGift s) a = true ->
  getFlag (hasSubmittedGift s') a = true /\
  encryptedGiftValues s' !! a = encryptedGiftValues s !! a /\
  giftMetadataURIs s' !! a = giftMetadataURIs s !! a.
Proof.
  induction cs as [|c cs IH]; intros s s' H Ha; simpl in H.
  - inversion H; subst. auto.
  - apply bind_Ok in H as (s1 & Hc & H).
    destruct (exec_gift_record c s s1 a Hc Ha) as (Ha1 & Hv1 & Hu1).
    destruct (IH s1 s' H Ha1) as (Ha' & Hv' & Hu'). split_and!; congruence.
Qed.

(** A gift is recorded once and for all: after a successful
    [submitGift] by [a] with value [v] and metadata [uri], whatever
    successful calls follow, [a]'s recorded value and metadata are still [v]
    and [uri], and once the game is revealed [getRevealedMatch a] reports
    [uri]. *)
Theorem submitted_gift_is_never_changed
    (s s1 s' : State) (a now v : Z) (uri : string) (cs : list Call) :
  submitGift a now v true uri s = Ok s1 ->
  run cs s1 = Ok s' ->
  getFlag (hasSubmittedGift s') a = true /\
  getWord (encryptedGiftValues s') a = v /\
  getString (giftMetadataURIs s') a = uri /\
  (currentPhase s' = Revealed ->
   getRevealedMatch a s' =
     Ok (getWord (revealedRecipients s') a, getWord (revealedGiftValues s') a, uri)).
Proof.
  intros Hsub Hrun.
  assert (Hrec : getFlag (hasSubmittedGift s1) a = true /\
                 encryptedGiftValues s1 !! a = Some v /\
                 giftMetadataURIs s1 !! a = Some uri).
  { unfold submitGift in Hsub. peel Hsub. simpl in Hsub.
    destruct (u4 =? participantCount s); inversion Hsub; subst; simpl;
      rewrite getFlag_insert_eq, !lookup_insert_eq; auto. }
  destruct Hrec as (Hf1 & Hv1 & Hu1).
  destruct (run_gift_record cs a s1 s' Hrun Hf1) as (Hf & Hv & Hu).
  assert (Huri : getString (giftMetadataURIs s') a = uri)
    by (unfold getString; rewrite Hu, Hu1; reflexivity).
  split_and!.
  - exact Hf.
  - unfold getWord. rewrite Hv, Hv1. reflexivity.
  - exact Huri.
  - intros Hph. unfold getRevealedMatch.
    rewrite (bool_decide_eq_true_2 (currentPhase s' = Revealed)) by exact Hph.
    rewrite Huri. reflexivity.
Qed.

Lemma submitted_gift_is_never_changed_witness :
  getString (giftMetadataURIs state_revealed) 11 = "ipfs://a"%string.
Proof.
  apply (submitted_gift_is_never_changed state_matched state_one_gift state_revealed
           11 300 5 "ipfs://a"
           [CallSubmitGift 12 310 6 true "ipfs://b";
            CallSubmitGift 13 320 7 true "ipfs://c";
            CallTriggerReveal 1000 460 1]).
  - vm_compute. reflexivity.
  - vm_compute. reflexivity.
Defined.

(** ** Games that cannot proceed *)

(** Below the minimum after the registration deadline, nothing can be done:
    in a deployed game in phase Registration with fewer participants than
    [minParticipants], every call made at or after the registration
    deadline reverts. *)
Theorem registration_below_minimum_is_stuck (s : State) (c : Call) :
  reachable s ->
  currentPhase s = Registration ->
  participantCount s < minParticipants s ->
  (forall t, call_time c = Some t -> registrationDeadline s <= t) ->
  exists e, exec c s = Revert e.
Proof.
  intros Hreach Hph Hfew Htime. pose proof (reachable_inv s Hreach) as Hinv.
  pose proof (inv_phase s Hinv) as Hphase. unfold phase_inv in Hphase.
  rewrite Hph in Hphase. destruct Hphase as (Hgen & _).
  destruct c; simpl in *.
  - specialize (Htime now eq_refl). unfold register, inPhase.
    rewrite (bool_decide_eq_true_2 (currentPhase s = Registration)) by exact Hph.
    apply Z.leb_le in Htime. rewrite Htime. simpl. eauto.
  - specialize (Htime now eq_refl). unfold startMatching, onlyOwner, inPhase.
    destruct (bool_decide (sender = owner s)); simpl; [|eauto].
    rewrite (bool_decide_eq_true_2 (currentPhase s = Registration)) by exact Hph.
    assert (Hb : (now <? registrationDeadline s) = false) by (apply Z.ltb_ge; lia).
    apply Z.ltb_lt in Hfew. rewrite Hb, Hfew. simpl. eauto.
  - unfold getMyRecipientEncrypted, onlyParticipant.
    destruct (getFlag (isParticipant s) sender); simpl; [|eauto].
    rewrite Hgen. simpl. eauto.
  - unfold submitGift, onlyParticipant, inPhase.
    destruct (getFlag (isParticipant s) sender); simpl; [|eauto].
    rewrite (bool_decide_eq_false_2 (currentPhase s = GiftSubmission))
      by (rewrite Hph; discriminate).
    simpl. eauto.
  - rewrite triggerReveal_wrong_phase by (rewrite Hph; discriminate). eauto.
  - unfold revealGift, onlyOwner.
    destruct (bool_decide (sender = owner s)); simpl; [|eauto].
    rewrite (bool_decide_eq_false_2 (currentPhase s = Revealed))
      by (rewrite Hph; discriminate).
    simpl. eauto.
Qed.

Lemma registration_below_minimum_witness :
  exists e, exec (CallStartMatching 1000 280 7)
              (after [CallRegister 11 1 110] genesis) = Revert e.
Proof.
  apply (registration_below_minimum_is_stuck
           (after [CallRegister 11 1 110] genesis) (CallStartMatching 1000 280 7)).
  - apply reachable_after, reachable_genesis.
  - vm_compute. reflexivity.
  - vm_compute. reflexivity.
  - intros t Ht. inversion Ht; subst. vm_compute. discriminate.
Defined.

(** A missed submission deadline freezes the game: in a deployed game in
    phase GiftSubmission some gift is still missing, and a sequence of
    successful calls all made at or after the submission deadline leaves
    the storage exactly as it was, so the phase stays GiftSubmission and
    nothing is ever revealed. *)
Theorem missed_submission_deadline_is_stuck (s : State) (cs : list Call) (s' : State) :
  reachable s ->
  currentPhase s = GiftSubmission ->
  Forall (fun c => forall t, call_time c = Some t -> giftSubmissionDeadline s <= t) cs ->
  run cs s = Ok s' ->
  giftsSubmittedCount s < participantCount s /\ s' = s.
Proof.
  intros Hreach Hph Htimes Hrun. split.
  - pose proof (inv_phase s (reachable_inv s Hreach)) as Hphase.
    unfold phase_inv in Hphase. rewrite Hph in Hphase. apply Hphase.
  - clear Hreach. induction Htimes as [|c cs Hc _ IH]; simpl in Hrun.
    + inversion Hrun. reflexivity.
    + apply bind_Ok in Hrun as (s1 & Hexec & Hrun).
      assert (Hsame : s1 = s).
      { pose proof (exec_effect c s s1 Hexec) as Heff. destruct c.
        - destruct Heff as [Hreg _]. congruence.
        - destruct Heff as [Hreg _]. congruence.
        - exact Heff.
        - simpl in Hexec, Hc. unfold submitGift in Hexec. peel Hexec.
          specialize (Hc now eq_refl). apply Z.leb_gt in Hg1. lia.
        - destruct Heff as [Hwr _]. congruence.
        - destruct Heff as [Hrv _]. congruence. }
      subst s1. apply IH. exact Hrun.
Qed.

Lemma missed_submission_deadline_witness :
  giftsSubmittedCount state_one_gift < participantCount state_one_gift /\
  state_one_gift = state_one_gift.
Proof.
  apply (missed_submission_deadline_is_stuck state_one_gift
           [CallGetMyRecipientEncrypted 12] state_one_gift reachable_state_one_gift).
  - vm_compute. reflexivity.
  - constructor; [|constructor]. intros t Ht. discriminate Ht.
  - vm_compute. reflexivity.
Defined.

(** ** The revealed table *)

Lemma array_get_inv (l : list Z) (i : Z) a :
  array_get l i = Ok a -> l !! Z.to_nat i = Some a.
Proof.
  unfold array_get. destruct (l !! Z.to_nat i) as [x|]; [|discriminate].
  intros H. inversion H. reflexivity.
Qed.

Lemma revealRecipientIndex_inv i o n idx :
  revealRecipientIndex i o n = Ok idx -> idx = (i + o) mod n /\ n <> 0.
Proof.
  unfold revealRecipientIndex. intros H. apply bind_Ok in H as (sum & Hs & H).
  apply add256_inv in Hs as [-> _]. unfold mod256 in H.
  destruct (n =? 0) eqn:E; [discriminate|]. apply Z.eqb_neq in E.
  inversion H. split; [reflexivity | exact E].
Qed.

(** Whatever offset it is given, a run of the loop from index [i] that
    does not revert has mapped each participant at or after [i] to the
    participant [o] places further round the registry, left other keys
    alone, and appended one [RecipientRevealed] event per index, in order. *)
Lemma reveal_loop_sound (o : Z) (k : nat) : forall (i : nat) (s s' : State),
  Z.of_nat (length (participants s)) = participantCount s ->
  (i + k)%nat = length (participants s) ->
  reveal_loop k (Z.of_nat i) o s = Ok s' ->
  (forall a, a ∈ drop i (participants s) ->
     exists (j : nat) r,
       (i <= j)%nat /\ participants s !! j = Some a /\
       participants s !! Z.to_nat ((Z.of_nat j + o) mod participantCount s) = Some r /\
       revealedRecipients s' !! a = Some r) /\
  (forall a, a ∉ drop i (participants s) ->
     revealedRecipients s' !! a = revealedRecipients s !! a) /\
  (exists evs,
     events s' = events s ++ evs /\ length evs = k /\
     forall (j : nat) giver, (i <= j)%nat -> participants s !! j = Some giver ->
       exists r,
         participants s !! Z.to_nat ((Z.of_nat j + o) mod participantCount s) = Some r /\
         evs !! (j - i)%nat = Some (RecipientRevealed giver r)).
Proof.
  induction k as [|k IH]; intros i s s' Hlen Hik H.
  - inversion H; subst. split_and!.
    + intros a Ha. rewrite drop_ge in Ha by lia. inversion Ha.
    + reflexivity.
    + exists []. split_and!; [rewrite app_nil_r; reflexivity | reflexivity |].
      intros j giver Hj Hjg. apply lookup_lt_Some in Hjg. lia.
  - cbn [reveal_loop] in H. peel H.
    apply array_get_inv in Hg. rewrite Nat2Z.id in Hg.
    apply revealRecipientIndex_inv in Hg0 as [-> Hn0].
    apply array_get_inv in Hg1. apply add256_inv in Hg2 as [-> _].
    replace (Z.of_nat i + 1) with (Z.of_nat (S i)) in H by lia.
    apply IH in H; [| exact Hlen | simpl; lia].
    simpl in H. destruct H as (Hin & Hout & evs & Hev & Hevlen & Hevs).
    split_and!.
    + intros a Ha.
      destruct (decide (a ∈ drop (S i) (participants s))) as [Hlater|Hnot].
      * destruct (Hin a Hlater) as (j & r & Hj & Hja & Hjr & Hres).
        exists j, r. split_and!; try assumption. lia.
      * rewrite (drop_S _ _ _ Hg) in Ha.
        apply elem_of_cons in Ha as [->|Ha]; [|contradiction].
        exists i, u1. split_and!; try assumption; [lia|].
        rewrite (Hout u Hnot). apply lookup_insert_eq.
    + intros a Ha.
      assert (Hne : u <> a).
      { intros ->. apply Ha. rewrite (drop_S _ _ _ Hg). apply elem_of_cons. left. reflexivity. }
      assert (Hnot : a ∉ drop (S i) (participants s)).
      { intros Hl. apply Ha. rewrite (drop_S _ _ _ Hg). apply elem_of_cons. right. exact Hl. }
      rewrite (Hout a Hnot). apply lookup_insert_ne. exact Hne.
    + exists (RecipientRevealed u u1 :: evs). split_and!.
      * rewrite Hev. rewrite <- app_assoc. reflexivity.
      * simpl. rewrite Hevlen. reflexivity.
      * intros j giver Hj Hjg. destruct (decide (j = i)) as [->|Hne].
        -- rewrite Hg in Hjg. inversion Hjg; subst. exists u1. split; [exact Hg1|].
           rewrite Nat.sub_diag. reflexivity.
        -- destruct (Hevs j giver ltac:(lia) Hjg) as (r & Hr & Hlook).
           exists r. split; [exact Hr|].
           replace (j - i)%nat with (S (j - S i)) by lia. exact Hlook.
Qed.

(** What a successful [triggerReveal] leaves, for any offset argument. *)
Lemma triggerReveal_sound sender now off s s' :
  inv s -> triggerReveal sender now off s = Ok s' ->
  sender = owner s /\ currentPhase s = WaitingReveal /\ revealTime s <= now /\
  currentPhase s' = Revealed /\ participants s' = participants s /\
  participantCount s' = participantCount s /\ revealedOffset s' = off /\
  (forall (i : nat) a, participants s !! i = Some a ->
     exists r,
       participants s !! Z.to_nat ((Z.of_nat i + off) mod participantCount s) = Some r /\
       revealedRecipients s' !! a = Some r) /\
  (exists evs,
     events s' = events s ++ [PhaseChanged Revealed now] ++ evs ++ [GameRevealed now] /\
     length evs = length (participants s) /\
     forall (i : nat) giver, participants s !! i = Some giver ->
       exists r,
         participants s !! Z.to_nat ((Z.of_nat i + off) mod participantCount s) = Some r /\
         evs !! i = Some (RecipientRevealed giver r)).
Proof.
  intros Hinv H. pose proof (inv_length s Hinv) as Hlen.
  unfold triggerReveal in H. peel H.
  apply bool_decide_eq_true in Hg0. apply Z.leb_le in Hg1.
  pose proof (reveal_loop_frame _ _ _ _ _ Hg2) as (m & log & Hframe).
  simpl in Hg2. replace (Z.to_nat (participantCount s)) with (length (participants s)) in Hg2
    by lia.
  apply (reveal_loop_sound off _ 0%nat) in Hg2; [| exact Hlen | reflexivity].
  simpl in Hg2. destruct Hg2 as (Hin & _ & evs & Hev & Hevlen & Hevs).
  inversion H; subst s'; clear H.
  split_and!; try assumption; try (rewrite Hframe; reflexivity).
  - intros i a Hi. destruct (Hin a) as (j & r & _ & Hj & Hr & Hres).
    { rewrite drop_0. apply list_elem_of_lookup. eauto. }
    assert (j = i) as -> by (eapply NoDup_lookup; [apply (inv_nodup s Hinv) | eassumption..]).
    exists r. split; [exact Hr | exact Hres].
  - exists evs. split_and!.
    + simpl. rewrite Hev. rewrite <- !app_assoc. reflexivity.
    + exact Hevlen.
    + intros i giver Hi. destruct (Hevs i giver ltac:(lia) Hi) as (r & Hr & Hlook).
      exists r. split; [exact Hr|]. rewrite Nat.sub_0_r in Hlook. exact Hlook.
Qed.

Lemma shift_any_injective n o i j :
  0 < n -> 0 <= i < n -> 0 <= j < n -> (i + o) mod n = (j + o) mod n -> i = j.
Proof.
  intros Hn Hi Hj H.
  pose proof (Z.div_mod (i + o) n ltac:(lia)) as E1.
  pose proof (Z.div_mod (j + o) n ltac:(lia)) as E2.
  rewrite H in E1.
  assert (Hq : i - j = n * ((i + o) / n - (j + o) / n)) by lia.
  assert ((i + o) / n - (j + o) / n = 0) by nia. lia.
Qed.

Lemma shift_any_surjective n o k :
  0 < n -> 0 <= k < n -> exists i, 0 <= i < n /\ (i + o) mod n = k.
Proof.
  intros Hn Hk. exists ((k - o) mod n). split; [apply Z.mod_pos_bound; lia|].
  rewrite Zplus_mod_idemp_l. replace (k - o + o) with k by lia.
  apply Z.mod_small. lia.
Qed.

Lemma reachable_revealed_table s :
  reachable s -> currentPhase s = Revealed -> revealed_table s.
Proof.
  induction 1 as [sender now rp gp rd fee mn mx s Hnow Hrp Hgp Hrd Hc | c s s' Hr IH Hstep];
    intros Hph.
  - unfold constructor in Hc. peel Hc. inversion Hc; subst. discriminate Hph.
  - pose proof (exec_effect c s s' Hstep) as Heff. destruct c.
    + destruct Heff as [_ H1]. congruence.
    + destruct Heff as [_ H1]. congruence.
    + subst s'. apply IH. exact Hph.
    + destruct Heff as (_ & _ & _ & _ & _ & H1). rewrite H1 in Hph.
      destruct (giftsSubmittedCount s' =? participantCount s'); discriminate.
    + simpl in Hstep.
      destruct (triggerReveal_sound _ _ _ _ _ (reachable_inv s Hr) Hstep)
        as (_ & _ & _ & _ & Hps & Hcnt & Hoff & Htab & _).
      intros i a Hi. rewrite Hps in Hi. rewrite Hps, Hcnt, Hoff. apply Htab. exact Hi.
    + destruct Heff as [Hrev _]. simpl in Hstep. unfold revealGift in Hstep. peel Hstep.
      inversion Hstep; subst. apply (IH Hrev).
Qed.

(** The revealed table is stable and follows [revealedOffset]: in every
    state of a deployed game in phase Revealed, whatever was called since
    the reveal, [getRevealedMatch] of the participant at index [i] reports
    the participant at index [(i + revealedOffset) mod count], together with
    the recorded gift value and metadata. *)
Theorem getRevealedMatch_follows_revealed_offset (s : State) (i : nat) (a : Z) :
  reachable s ->
  currentPhase s = Revealed ->
  participants s !! i = Some a ->
  exists r,
    participants s
      !! Z.to_nat ((Z.of_nat i + revealedOffset s) mod participantCount s) = Some r /\
    getRevealedMatch a s =
      Ok (r, getWord (revealedGiftValues s) a, getString (giftMetadataURIs s) a).
Proof.
  intros Hreach Hph Hi.
  destruct (reachable_revealed_table s Hreach Hph i a Hi) as (r & Hr & Hres).
  exists r. split; [exact Hr|]. unfold getRevealedMatch.
  rewrite (bool_decide_eq_true_2 (currentPhase s = Revealed)) by exact Hph.
  unfold getWord at 1. rewrite Hres. reflexivity.
Qed.

Lemma getRevealedMatch_witness :
  exists r,
    participants state_revealed
      !! Z.to_nat ((Z.of_nat 2 + revealedOffset state_revealed)
                   mod participantCount state_revealed) = Some r /\
    getRevealedMatch 13 state_revealed =
      Ok (r, getWord (revealedGiftValues state_revealed) 13,
          getString (giftMetadataURIs state_revealed) 13).
Proof.
  apply (getRevealedMatch_follows_revealed_offset state_revealed 2 13
           reachable_state_revealed).
  - vm_compute. reflexivity.
  - vm_compute. reflexivity.
Defined.

(** Every reveal is a permutation: in every state of a deployed game in
    phase Revealed, whatever offset the operator supplied, the revealed
    recipient of a participant is a participant, two different participants
    have different revealed recipients, and every participant is the
    revealed recipient of some participant. *)
Theorem revealed_recipients_are_a_permutation (s : State) :
  reachable s ->
  currentPhase s = Revealed ->
  (forall a, a ∈ participants s -> getWord (revealedRecipients s) a ∈ participants s) /\
  (forall a b, a ∈ participants s -> b ∈ participants s ->
     getWord (revealedRecipients s) a = getWord (revealedRecipients s) b -> a = b) /\
  (forall r, r ∈ participants s ->
     exists a, a ∈ participants s /\ getWord (revealedRecipients s) a = r).
Proof.
  intros Hreach Hph. pose proof (reachable_inv s Hreach) as Hinv.
  pose proof (reachable_revealed_table s Hreach Hph) as Htab.
  pose proof (inv_length s Hinv) as Hlen. pose proof (inv_nodup s Hinv) as Hnd.
  unfold revealed_table in Htab.
  set (n := participantCount s) in *. set (o := revealedOffset s) in *.
  split_and!.
  - intros a Ha. apply list_elem_of_lookup in Ha as [i Hi].
    destruct (Htab i a Hi) as (r & Hr & Hres). unfold getWord. rewrite Hres. simpl.
    apply list_elem_of_lookup. eauto.
  - intros a b Ha Hb Heq.
    apply list_elem_of_lookup in Ha as [i Hi]. apply list_elem_of_lookup in Hb as [j Hj].
    destruct (Htab i a Hi) as (ra & Hra & Hresa).
    destruct (Htab j b Hj) as (rb & Hrb & Hresb).
    unfold getWord in Heq. rewrite Hresa, Hresb in Heq. simpl in Heq. subst rb.
    pose proof (NoDup_lookup _ _ _ _ Hnd Hra Hrb) as Hidx.
    pose proof (lookup_lt_Some _ _ _ Hi) as Hilt.
    pose proof (lookup_lt_Some _ _ _ Hj) as Hjlt.
    assert (Hn : 0 < n) by lia.
    pose proof (Z.mod_pos_bound (Z.of_nat i + o) n Hn).
    pose proof (Z.mod_pos_bound (Z.of_nat j + o) n Hn).
    assert (Hij : Z.of_nat i = Z.of_nat j).
    { apply (shift_any_injective n o); lia. }
    assert (i = j) by lia. subst j. congruence.
  - intros r Hr. apply list_elem_of_lookup in Hr as [k Hk].
    pose proof (lookup_lt_Some _ _ _ Hk) as Hklt.
    assert (Hn : 0 < n) by lia.
    destruct (shift_any_surjective n o (Z.of_nat k) Hn ltac:(lia)) as (i & Hi & Hik).
    assert (Hilt : (Z.to_nat i < length (participants s))%nat) by lia.
    destruct (lookup_lt_is_Some_2 _ _ Hilt) as [a Ha].
    exists a. split; [apply list_elem_of_lookup; eauto|].
    destruct (Htab _ a Ha) as (r' & Hr' & Hres).
    rewrite Z2Nat.id in Hr' by lia. rewrite Hik, Nat2Z.id, Hk in Hr'.
    inversion Hr'; subst r'. unfold getWord. rewrite Hres. reflexivity.
Qed.

Lemma revealed_recipients_permutation_witness :
  (forall a, a ∈ participants state_revealed ->
     getWord (revealedRecipients state_revealed) a ∈ participants state_revealed) /\
  (forall a b, a ∈ participants state_revealed -> b ∈ participants state_revealed ->
     getWord (revealedRecipients state_revealed) a
       = getWord (revealedRecipients state_revealed) b -> a = b) /\
  (forall r, r ∈ participants state_revealed ->
     exists a, a ∈ participants state_revealed /\
               getWord (revealedRecipients state_revealed) a = r).
Proof.
  apply (revealed_recipients_are_a_permutation state_revealed reachable_state_revealed).
  vm_compute. reflexivity.
Defined.

(** The reveal agrees with what participants were told exactly when the
    supplied offset is congruent to the stored one: when a [triggerReveal]
    succeeds in a deployed game, the revealed recipient of the participant
    at index [i] is the participant that [getMyRecipientEncrypted] pointed
    them to if and only if the supplied offset, reduced modulo the
    participant count, is the stored matching offset; in that case nobody
    is revealed as their own recipient. *)
Theorem reveal_matches_query_iff_offsets_agree
    (s s' : State) (sender now off : Z) (i : nat) (a : Z) :
  reachable s ->
  triggerReveal sender now off s = Ok s' ->
  participants s !! i = Some a ->
  exists q told revealed,
    getMyRecipientEncrypted a s = Ok q /\
    participants s !! Z.to_nat q = Some told /\
    revealedRecipients s' !! a = Some revealed /\
    (revealed = told <-> off mod participantCount s = encryptedMatchingOffset s) /\
    (off mod participantCount s = encryptedMatchingOffset s -> revealed <> a).
Proof.
  intros Hreach Hrun Hi. pose proof (reachable_inv s Hreach) as Hinv.
  destruct (triggerReveal_sound _ _ _ _ _ Hinv Hrun)
    as (_ & Hph & _ & _ & _ & _ & _ & Htab & _).
  destruct (getMyRecipientEncrypted_spec s i a Hreach (or_intror Hph) Hi) as [Hq Hqne].
  destruct (Htab i a Hi) as (revealed & Hrev & Hres).
  pose proof (inv_length s Hinv) as Hlen. pose proof (inv_nodup s Hinv) as Hnd.
  pose proof (inv_phase s Hinv) as Hphase. unfold phase_inv, matched in Hphase.
  rewrite Hph in Hphase. destruct Hphase as ((_ & _ & Hoff) & _).
  pose proof (lookup_lt_Some _ _ _ Hi) as Hilt.
  set (n := participantCount s) in *. set (o := encryptedMatchingOffset s) in *.
  assert (Hn : 0 < n) by lia.
  pose proof (Z.mod_pos_bound (Z.of_nat i + o) n Hn) as Hqb.
  pose proof (Z.mod_pos_bound (Z.of_nat i + off) n Hn) as Hrb.
  pose proof (Z.mod_pos_bound off n Hn) as Hob.
  assert (Hqlt : (Z.to_nat ((Z.of_nat i + o) mod n) < length (participants s))%nat) by lia.
  destruct (lookup_lt_is_Some_2 _ _ Hqlt) as [told Htold].
  assert (Hiff : revealed = told <-> off mod n = o).
  { split.
    - intros ->. pose proof (NoDup_lookup _ _ _ _ Hnd Hrev Htold) as Hidx.
      assert (Heq : (off mod n + Z.of_nat i) mod n = (o + Z.of_nat i) mod n).
      { rewrite Zplus_mod_idemp_l. rewrite (Z.add_comm off), (Z.add_comm o). lia. }
      apply (shift_any_injective n (Z.of_nat i)); [lia | lia | lia | exact Heq].
    - intros Hcong.
      assert (Heq : (Z.of_nat i + off) mod n = (Z.of_nat i + o) mod n).
      { rewrite <- Hcong. rewrite Zplus_mod_idemp_r. reflexivity. }
      rewrite Heq, Htold in Hrev. inversion Hrev. reflexivity. }
  exists ((Z.of_nat i + o) mod n), told, revealed.
  split_and!; try assumption.
  intros Hcong. apply Hiff in Hcong. subst revealed. intros ->.
  pose proof (NoDup_lookup _ _ _ _ Hnd Htold Hi). lia.
Qed.

Lemma reveal_matches_query_witness :
  exists q told revealed,
    getMyRecipientEncrypted 11 state_all_gifts = Ok q /\
    participants state_all_gifts !! Z.to_nat q = Some told /\
    revealedRecipients state_revealed !! 11 = Some revealed /\
    (revealed = told <->
     1 mod participantCount state_all_gifts = encryptedMatchingOffset state_all_gifts) /\
    (1 mod participantCount state_all_gifts = encryptedMatchingOffset state_all_gifts ->
     revealed <> 11).
Proof.
  apply (reveal_matches_query_iff_offsets_agree state_all_gifts state_revealed
           1000 460 1 0%nat 11 reachable_state_all_gifts).
  - vm_compute. reflexivity.
  - vm_compute. reflexivity.
Defined.

(** The events of a reveal: a successful [triggerReveal] in a deployed game
    appends to the log, in this order, the change to phase Revealed, one
    [RecipientRevealed] event per participant in registration order, each
    naming the recipient that is stored for that participant, and
    [GameRevealed]. *)
Theorem triggerReveal_event_log (s s' : State) (sender now off : Z) :
  reachable s ->
  triggerReveal sender now off s = Ok s' ->
  exists evs,
    events s' = events s ++ [PhaseChanged Revealed now] ++ evs ++ [GameRevealed now] /\
    length evs = length (participants s) /\
    (forall (i : nat) giver, participants s !! i = Some giver ->
       exists recipient,
         evs !! i = Some (RecipientRevealed giver recipient) /\
         revealedRecipients s' !! giver = Some recipient).
Proof.
  intros Hreach Hrun. pose proof (reachable_inv s Hreach) as Hinv.
  destruct (triggerReveal_sound _ _ _ _ _ Hinv Hrun)
    as (_ & _ & _ & _ & _ & _ & _ & Htab & evs & Hev & Hlen & Hevs).
  exists evs. split_and!; try assumption.
  intros i giver Hi.
  destruct (Htab i giver Hi) as (r & Hr & Hres).
  destruct (Hevs i giver Hi) as (r' & Hr' & Hlook).
  rewrite Hr in Hr'. inversion Hr'; subst r'. exists r. split; assumption.
Qed.

Lemma triggerReveal_event_log_witness :
  exists evs,
    events state_revealed =
      events state_all_gifts ++ [PhaseChanged Revealed 460] ++ evs ++ [GameRevealed 460] /\
    length evs = length (participants state_all_gifts) /\
    (forall (i : nat) giver, participants state_all_gifts !! i = Some giver ->
       exists recipient,
         evs !! i = Some (RecipientRevealed giver recipient) /\
         revealedRecipients state_revealed !! giver = Some recipient).
Proof.
  apply (triggerReveal_event_log state_all_gifts state_revealed 1000 460 1
           reachable_state_all_gifts).
  vm_compute. reflexivity.
Defined.

(** ** The configuration *)

Lemma exec_config c s s' :
  exec c s = Ok s' ->
  owner s' = owner s /\ registrationDeadline s' = registrationDeadline s /\
  giftSubmissionDeadline s' = giftSubmissionDeadline s /\ revealTime s' = revealTime s /\
  entryFee s' = entryFee s /\ minParticipants s' = minParticipants s /\
  maxParticipants s' = maxParticipants s.
Proof.
  intros H. destruct c; simpl in H.
  - unfold register in H. peel H. inversion H; subst. split_and!; reflexivity.
  - unfold startMatching in H. peel H. unfold _generateMatches in Hg3. peel Hg3.
    inversion Hg3; subst. inversion H; subst. split_and!; reflexivity.
  - peel H. inversion H; subst. split_and!; reflexivity.
  - unfold submitGift in H. peel H. simpl in H.
    destruct (u4 =? participantCount s); inversion H; subst; split_and!; reflexivity.
  - unfold triggerReveal in H. peel H.
    apply reveal_loop_frame in Hg2 as (m & log & ->).
    inversion H; subst. split_and!; reflexivity.
  - unfold revealGift in H. peel H. inversion H; subst. split_and!; reflexivity.
Qed.

(** The configuration is fixed at construction: in a deployed game the
    deadlines reported by [getGameInfo] are ordered, and no sequence of
    successful calls changes the owner, the deadlines, the fee or the
    participant limits. *)
Theorem configuration_is_immutable (s : State) :
  reachable s ->
  (let '(_, _, regDeadline, subDeadline, revTime) := getGameInfo s in
   regDeadline <= subDeadline <= revTime) /\
  (forall cs s', run cs s = Ok s' ->
     owner s' = owner s /\ entryFee s' = entryFee s /\
     minParticipants s' = minParticipants s /\ maxParticipants s' = maxParticipants s /\
     (let '(_, _, regDeadline, subDeadline, revTime) := getGameInfo s in
      let '(_, _, regDeadline', subDeadline', revTime') := getGameInfo s' in
      regDeadline' = regDeadline /\ subDeadline' = subDeadline /\ revTime' = revTime)).
Proof.
  intros Hreach. split.
  - simpl. apply (inv_deadlines s (reachable_inv s Hreach)).
  - clear Hreach. intros cs. revert s.
    induction cs as [|c cs IH]; intros s s' H; simpl in H.
    + inversion H; subst. simpl. split_and!; reflexivity.
    + apply bind_Ok in H as (s1 & Hc & H).
      destruct (exec_config c s s1 Hc) as (E1 & E2 & E3 & E4 & E5 & E6 & E7).
      specialize (IH s1 s' H). simpl in IH |- *.
      destruct IH as (I1 & I2 & I3 & I4 & I5 & I6 & I7).
      split_and!; congruence.
Qed.

Lemma configuration_is_immutable_witness :
  registrationDeadline state_revealed = registrationDeadline genesis /\
  revealTime state_revealed = revealTime genesis.
Proof.
  destruct (configuration_is_immutable genesis reachable_genesis) as [_ Hkeep].
  destruct (Hkeep (registrations ++ [CallStartMatching 1000 280 7] ++ submissions
                   ++ [CallTriggerReveal 1000 460 1]) state_revealed)
    as (_ & _ & _ & _ & Hinfo).
  - vm_compute. reflexivity.
  - simpl in Hinfo. destruct Hinfo as (H1 & _ & H3). split; assumption.
Defined.

(** ** [_nextPowerOfTwo] *)

Lemma top_bits_set_smear h m s y :
  0 < s <= m -> top_bits_set h m y ->
  top_bits_set h (m + s) (Z.lor y (Z.shiftr y s)).
Proof.
  intros Hs [Hhigh Hones]. split.
  - intros i Hi. rewrite Z.lor_spec.
    destruct (Z_lt_ge_dec i 0) as [Hneg|Hpos].
    + rewrite !Z.testbit_neg_r by lia. reflexivity.
    + rewrite Z.shiftr_spec by lia. rewrite !Hhigh by lia. reflexivity.
  - intros i Hi0 Hlow Hup. rewrite Z.lor_spec, Z.shiftr_spec by lia.
    destruct (Z_lt_ge_dec (h - m) i) as [Hin|Hout].
    + rewrite (Hones i) by lia. reflexivity.
    + rewrite (Hones (i + s)) by lia. apply orb_true_r.
Qed.

Lemma top_bits_set_all h y :
  0 <= h < 64 -> top_bits_set h 64 y -> y = Z.ones (h + 1).
Proof.
  intros Hh [Hhigh Hones]. apply Z.bits_inj'. intros i Hi.
  destruct (Z_lt_ge_dec h i) as [Habove|Hbelow].
  - rewrite Hhigh by lia. rewrite Z.ones_spec_high by lia. reflexivity.
  - rewrite Hones by lia. rewrite Z.ones_spec_low by lia. reflexivity.
Qed.

(** [_nextPowerOfTwo] is right up to [2^64]: for [0 <= n <= 2^64] it
    returns the least power of two that is at least [n] (1 for [n = 0]),
    that is [2 ^ log2_up n]; the result is at least [n] and, for [n >= 1],
    below [2 * n]. *)
Theorem nextPowerOfTwo_correct_up_to_2_64 (n : Z) :
  0 <= n <= 2 ^ 64 ->
  _nextPowerOfTwo n = Ok (2 ^ Z.log2_up n) /\
  n <= 2 ^ Z.log2_up n /\
  (1 <= n -> 2 ^ Z.log2_up n < 2 * n).
Proof.
  intros Hn.
  assert (H64 : 2 ^ 64 = 18446744073709551616) by reflexivity.
  assert (Hbounds : n <= 2 ^ Z.log2_up n /\ (1 <= n -> 2 ^ Z.log2_up n < 2 * n)).
  { destruct (Z_le_gt_dec n 1) as [Hsmall|Hbig].
    - assert (Hl : Z.log2_up n = 0) by (apply Z.log2_up_eqn0; lia).
      rewrite Hl. simpl. lia.
    - pose proof (Z.log2_up_spec n ltac:(lia)) as [Hlo Hhi].
      split; [exact Hhi|]. intros _.
      assert (Hp : 2 ^ Z.log2_up n = 2 * 2 ^ Z.pred (Z.log2_up n)).
      { rewrite <- Z.pow_succ_r.
        - f_equal. lia.
        - pose proof (Z.log2_up_pos n ltac:(lia)). lia. }
      lia. }
  split; [|exact Hbounds].
  unfold _nextPowerOfTwo. destruct (n =? 0) eqn:E0.
  { apply Z.eqb_eq in E0. subst n. reflexivity. }
  apply Z.eqb_neq in E0.
  destruct (Z.eq_dec n 1) as [->|Hn1]; [reflexivity|].
  set (x := n - 1).
  assert (Hx : 1 <= x < 2 ^ 64) by (unfold x; lia).
  set (h := Z.log2 x).
  assert (Hh : 0 <= h < 64).
  { split; [apply Z.log2_nonneg|]. apply Z.log2_lt_pow2; lia. }
  assert (T0 : top_bits_set h 1 x).
  { split.
    - intros i Hi. apply Z.bits_above_log2; [lia | exact Hi].
    - intros i Hi0 Hlow Hup. replace i with h by lia. apply Z.bit_log2. lia. }
  pose proof (top_bits_set_smear h 1 1 _ ltac:(lia) T0) as T1.
  pose proof (top_bits_set_smear h 2 2 _ ltac:(lia) T1) as T2.
  pose proof (top_bits_set_smear h 4 4 _ ltac:(lia) T2) as T3.
  pose proof (top_bits_set_smear h 8 8 _ ltac:(lia) T3) as T4.
  pose proof (top_bits_set_smear h 16 16 _ ltac:(lia) T4) as T5.
  pose proof (top_bits_set_smear h 32 32 _ ltac:(lia) T5) as T6.
  apply (top_bits_set_all h _ Hh) in T6.
  cbv zeta. rewrite T6. rewrite Z.ones_equiv.
  assert (Hlog : Z.log2_up n = h + 1).
  { unfold Z.log2_up. destruct (1 ?= n) eqn:C.
    - apply Z.compare_eq in C. lia.
    - unfold h, x. rewrite <- Z.sub_1_r. lia.
    - apply Z.compare_gt_iff in C. lia. }
  rewrite Hlog.
  assert (Hpow : 2 ^ (h + 1) <= 2 ^ 64) by (apply Z.pow_le_mono_r; lia).
  pose proof UINT256_MAX_large.
  rewrite add256_Ok by lia. f_equal. lia.
Qed.

Lemma nextPowerOfTwo_witness :
  _nextPowerOfTwo 5 = Ok (2 ^ Z.log2_up 5) /\
  5 <= 2 ^ Z.log2_up 5 /\
  (1 <= 5 -> 2 ^ Z.log2_up 5 < 2 * 5).
Proof.
  apply (nextPowerOfTwo_correct_up_to_2_64 5). vm_compute. split; discriminate.
Defined.

(** ** The parameter validation script and the constructor *)

Lemma validateParams_errors_nil (p : DeployParams) :
  validateParams_errors p = [] <->
  3 <= MIN_PARTICIPANTS p /\ MAX_PARTICIPANTS p <= 256 /\
  MIN_PARTICIPANTS p <= MAX_PARTICIPANTS p.
Proof.
  unfold validateParams_errors.
  destruct (MIN_PARTICIPANTS p <? 3) eqn:E1;
    destruct (256 <? MAX_PARTICIPANTS p) eqn:E2;
    destruct (MAX_PARTICIPANTS p <? MIN_PARTICIPANTS p) eqn:E3;
    rewrite ?Z.ltb_lt, ?Z.ltb_ge in *; simpl; split;
    try discriminate; try reflexivity; try lia.
Qed.

(** [validateParams] accepts exactly what the constructor accepts: it
    returns true if and only if the minimum is at least 3, the maximum at
    most 256 and the minimum not above the maximum, whatever warnings it
    collects; and for non-negative durations whose sum with the creation
    time fits in 256 bits, that is if and only if the constructor succeeds
    on those parameters. *)
Theorem validateParams_agrees_with_constructor
    (p : DeployParams) (sender now fee : Z) :
  0 <= now -> 0 <= REGISTRATION_PERIOD p -> 0 <= MATCHING_PERIOD p -> 0 <= REVEAL_DELAY p ->
  now + REGISTRATION_PERIOD p + MATCHING_PERIOD p + REVEAL_DELAY p <= UINT256_MAX ->
  (validateParams p = true <->
   3 <= MIN_PARTICIPANTS p /\ MAX_PARTICIPANTS p <= 256 /\
   MIN_PARTICIPANTS p <= MAX_PARTICIPANTS p) /\
  (validateParams p = true <->
   exists s,
     constructor sender now (REGISTRATION_PERIOD p) (MATCHING_PERIOD p) (REVEAL_DELAY p)
       fee (MIN_PARTICIPANTS p) (MAX_PARTICIPANTS p) = Ok s).
Proof.
  intros Hnow Hrp Hmp Hrd Hfit.
  assert (Hval : validateParams p = true <->
            3 <= MIN_PARTICIPANTS p /\ MAX_PARTICIPANTS p <= 256 /\
            MIN_PARTICIPANTS p <= MAX_PARTICIPANTS p).
  { rewrite <- validateParams_errors_nil. unfold validateParams.
    destruct (validateParams_errors p) as [|e es]; simpl; split;
      try discriminate; reflexivity. }
  split; [exact Hval|]. rewrite Hval. split.
  - intros (Hmin & Hmax & Hle). unfold constructor.
    apply Z.leb_le in Hmin, Hmax, Hle. rewrite Hmin, Hmax, Hle.
    cbn [require mbind result_bind].
    rewrite add256_Ok by lia. cbn [mbind result_bind].
    rewrite add256_Ok by lia. cbn [mbind result_bind].
    rewrite add256_Ok by lia. cbn [mbind result_bind]. eauto.
  - intros [s H]. unfold constructor in H. peel H.
    apply Z.leb_le in Hg, Hg0, Hg1. lia.
Qed.

Lemma validateParams_witness :
  validateParams (mkDeployParams "Test" 300 300 120 "0.001" 3 10) = true <->
  exists s, constructor 1000 100 300 300 120 1 3 10 = Ok s.
Proof.
  apply (validateParams_agrees_with_constructor
           (mkDeployParams "Test" 300 300 120 "0.001" 3 10) 1000 100 1);
    simpl; try lia.
  unfold UINT256_MAX. vm_compute. discriminate.
Defined.

(** ** The timeline over an execution *)

(** The timeline only moves forward: along any sequence of successful
    calls, a phase shown as completed stays completed, a phase shown as
    current is afterwards current or completed, and in a deployed game the
    Matching phase is never shown as current. *)
Theorem timeline_only_moves_forward (s : State) (phase : Z) :
  reachable s ->
  getPhaseStatus (phaseIndex (currentPhase s)) (phaseIndex Matching) <> current /\
  (forall cs s', run cs s = Ok s' ->
     (getPhaseStatus (phaseIndex (currentPhase s)) phase = completed ->
      getPhaseStatus (phaseIndex (currentPhase s')) phase = completed) /\
     (getPhaseStatus (phaseIndex (currentPhase s)) phase = current ->
      getPhaseStatus (phaseIndex (currentPhase s')) phase <> upcoming)).
Proof.
  intros Hreach.
  assert (Hnm : currentPhase s <> Matching).
  { pose proof (inv_phase s (reachable_inv s Hreach)) as Hph. unfold phase_inv in Hph.
    intros E. rewrite E in Hph. exact Hph. }
  split.
  - unfold getPhaseStatus. destruct (currentPhase s); simpl; try discriminate.
    contradiction.
  - intros cs s' Hrun.
    assert (Hmono : phaseIndex (currentPhase s) <= phaseIndex (currentPhase s')).
    { clear Hreach Hnm. revert s Hrun.
      induction cs as [|c cs IH]; intros s H; simpl in H.
      - inversion H; subst. reflexivity.
      - apply bind_Ok in H as (s1 & Hc & H).
        pose proof (exec_phase_monotone c s s1 Hc). pose proof (IH s1 H). lia. }
    unfold getPhaseStatus. split.
    + destruct (phase <? phaseIndex (currentPhase s)) eqn:E1.
      * intros _. apply Z.ltb_lt in E1.
        assert (E2 : (phase <? phaseIndex (currentPhase s')) = true)
          by (apply Z.ltb_lt; lia).
        rewrite E2. reflexivity.
      * destruct (phase =? phaseIndex (currentPhase s)); discriminate.
    + destruct (phase <? phaseIndex (currentPhase s)) eqn:E1; [discriminate|].
      destruct (phase =? phaseIndex (currentPhase s)) eqn:E2; [|discriminate].
      intros _. apply Z.eqb_eq in E2.
      destruct (phase <? phaseIndex (currentPhase s')) eqn:E3; [discriminate|].
      apply Z.ltb_ge in E3.
      assert (E4 : (phase =? phaseIndex (currentPhase s')) = true)
        by (apply Z.eqb_eq; lia).
      rewrite E4. discriminate.
Qed.

Lemma timeline_only_moves_forward_witness :
  getPhaseStatus (phaseIndex (currentPhase state_matched)) (phaseIndex Matching) <> current.
Proof.
  apply (timeline_only_moves_forward state_matched 0 reachable_state_matched).
Defined.

(** ** The recipient query, from the caller's side *)

(** Between matching and reveal every registered participant can ask for
    their recipient, and the answers are a matching: in a deployed game in
    phase GiftSubmission or WaitingReveal, [getMyRecipientEncrypted] succeeds
    for every registered caller with an index below the participant count,
    [getParticipantByIndex] turns it into a registered address other than
    the caller, and two different callers are pointed to different
    addresses; an unregistered caller is refused. *)
Theorem recipient_query_is_a_matching (s : State) :
  reachable s ->
  currentPhase s = GiftSubmission \/ currentPhase s = WaitingReveal ->
  (forall a, isRegistered a s = true ->
     exists q r,
       getMyRecipientEncrypted a s = Ok q /\
       0 <= q < participantCount s /\
       getParticipantByIndex q s = Ok r /\
       isRegistered r s = true /\ r <> a) /\
  (forall a b q, isRegistered a s = true -> isRegistered b s = true ->
     getMyRecipientEncrypted a s = Ok q -> getMyRecipientEncrypted b s = Ok q -> a = b) /\
  (forall a, isRegistered a s = false ->
     getMyRecipientEncrypted a s = Revert NotRegistered).
Proof.
  intros Hreach Hph. pose proof (reachable_inv s Hreach) as Hinv.
  pose proof (inv_length s Hinv) as Hlen. pose proof (inv_nodup s Hinv) as Hnd.
  pose proof (inv_phase s Hinv) as Hphase. unfold phase_inv, matched in Hphase.
  assert (Hoff : 3 <= participantCount s).
  { pose proof (inv_limits s Hinv).
    destruct Hph as [Hp|Hp]; rewrite Hp in Hphase; lia. }
  set (n := participantCount s) in *. set (o := encryptedMatchingOffset s) in *.
  assert (Hn : 0 < n) by lia.
  split_and!.
  - intros a Ha. apply (inv_registered s Hinv) in Ha.
    apply list_elem_of_lookup in Ha as [i Hi].
    destruct (getMyRecipientEncrypted_spec s i a Hreach Hph Hi) as [Hq Hne].
    fold n o in Hq, Hne.
    pose proof (Z.mod_pos_bound (Z.of_nat i + o) n Hn) as Hqb.
    assert (Hqlt : (Z.to_nat ((Z.of_nat i + o) mod n) < length (participants s))%nat) by lia.
    destruct (lookup_lt_is_Some_2 _ _ Hqlt) as [r Hr].
    exists ((Z.of_nat i + o) mod n), r. split_and!; try assumption; try lia.
    + rewrite <- (Z2Nat.id ((Z.of_nat i + o) mod n)) by lia.
      apply getParticipantByIndex_Ok; assumption.
    + apply (inv_registered s Hinv). apply list_elem_of_lookup. eauto.
    + intros ->. pose proof (NoDup_lookup _ _ _ _ Hnd Hr Hi). lia.
  - intros a b q Ha Hb Hqa Hqb.
    apply (inv_registered s Hinv) in Ha, Hb.
    apply list_elem_of_lookup in Ha as [i Hi]. apply list_elem_of_lookup in Hb as [j Hj].
    destruct (getMyRecipientEncrypted_spec s i a Hreach Hph Hi) as [Hqa' _].
    destruct (getMyRecipientEncrypted_spec s j b Hreach Hph Hj) as [Hqb' _].
    rewrite Hqa in Hqa'. rewrite Hqb in Hqb'. inversion Hqa'. inversion Hqb'.
    pose proof (lookup_lt_Some _ _ _ Hi). pose proof (lookup_lt_Some _ _ _ Hj).
    assert (Hij : Z.of_nat i = Z.of_nat j).
    { apply (shift_any_injective n o); [lia | lia | lia | unfold n, o; congruence]. }
    assert (i = j) by lia. subst j. congruence.
  - intros a Ha. unfold isRegistered in Ha.
    unfold getMyRecipientEncrypted, onlyParticipant. rewrite Ha. reflexivity.
Qed.

Lemma recipient_query_is_a_matching_witness :
  exists q r,
    getMyRecipientEncrypted 13 state_one_gift = Ok q /\
    0 <= q < participantCount state_one_gift /\
    getParticipantByIndex q state_one_gift = Ok r /\
    isRegistered r state_one_gift = true /\ r <> 13.
Proof.
  destruct (recipient_query_is_a_matching state_one_gift reachable_state_one_gift)
    as (Hall & _).
  - left. vm_compute. reflexivity.
  - apply Hall. vm_compute. reflexivity.
Defined.

Lemma registration_is_permanent_witness :
  participants (after [CallRegister 11 1 110] genesis)
    `prefix_of` participants state_revealed /\
  (forall a, isRegistered a (after [CallRegister 11 1 110] genesis) = true ->
     isRegistered a state_revealed = true /\
     getWord (participantIndex state_revealed) a
       = getWord (participantIndex (after [CallRegister 11 1 110] genesis)) a) /\
  (currentPhase (after [CallRegister 11 1 110] genesis) <> Registration ->
   participants state_revealed = participants (after [CallRegister 11 1 110] genesis)).
Proof.
  apply (registration_is_permanent
           ([CallRegister 12 1 120; CallRegister 13 1 130; CallStartMatching 1000 280 7]
              ++ submissions ++ [CallTriggerReveal 1000 460 1])).
  vm_compute. reflexivity.
Defined.
